(** * deftree/associate_comments.go: comment association for the Deftree

    A shallow embedding of [associate_comments.go]: the comment scrubber
    [scrubComments], the descriptor path resolver [buildNamePath] with its
    helpers [getProtobufField] and [getCollectionIndex], and the driver
    [AssociateComments].

    Go values are modelled as follows.
    - A Go [string] is a [string] of 8-bit characters; the library functions
      of package [strings] and [regexp] work on its bytes ([list ascii]).
      Every pattern of the source is pure ASCII, so working on bytes rather
      than on UTF-8 runes changes nothing.
    - [int] and [int32] are [Z]; the code compares them and does no
      arithmetic on them, so that no wrap-around arises.
    - A [reflect.Value] is a [reflect.Value] tree (see [Module reflect]).
    - A Go function returning [(T, error)] that may also panic returns a
      [Res T], one of [Ret v], [Fail err] and [Panic p]. *)

From Stdlib Require Import List String Ascii ZArith Lia Bool Arith.
Import ListNotations.

#[local] Set Warnings "-register-all".

Local Open Scope string_scope.
Local Open Scope list_scope.
Local Open Scope Z_scope.

(** ** Bytes of a string *)

Definition bytes := list ascii.

Definition b (s : string) : bytes := list_ascii_of_string s.
Definition str (l : bytes) : string := string_of_list_ascii l.

Definition LF : ascii := "010"%char.
Definition TAB : ascii := "009"%char.
Definition FF : ascii := "012"%char.
Definition CR : ascii := "013"%char.
Definition DQUOTE : ascii := "034"%char.
Definition SLASH : ascii := "/"%char.

(** ** Outcomes of Go calls *)

(** Run-time panics the modelled code can raise. *)
Inductive PanicValue :=
| PanicCannotAccessIndex (len : nat) (index : Z)
    (* the explicit [panic] of [getCollectionIndex] *)
| PanicZeroValueType        (* reflect: call of reflect.Value.Type on zero Value *)
| PanicZeroValueInterface   (* reflect: call of reflect.Value.Interface on zero Value *)
| PanicNumFieldOfNonStruct  (* reflect: NumField of non-struct type *)
| PanicSliceIndex           (* reflect: slice index out of range *)
| PanicStringIndex          (* reflect: string index out of range *)
| PanicIndexOfNonSlice      (* reflect: call of reflect.Value.Index on a value without elements *)
| PanicLenOfNonSlice        (* reflect: call of reflect.Value.Len on a value without length *)
| PanicInterfaceConversion  (* interface conversion: interface {} is not *string *)
| PanicNilDereference       (* invalid memory address or nil pointer dereference *)
| PanicIndexOutOfRange.     (* index out of range on a Go slice *)

Inductive Outcome (E A : Type) :=
| Ret (a : A)
| Fail (e : E)
| Panic (p : PanicValue).

Arguments Ret {E A} a.
Arguments Fail {E A} e.
Arguments Panic {E A} p.

Definition bind {E A B} (m : Outcome E A) (k : A -> Outcome E B) : Outcome E B :=
  match m with
  | Ret a => k a
  | Fail e => Fail e
  | Panic p => Panic p
  end.

Notation "x <- m ;; k" := (bind m (fun x => k))
  (at level 61, m at next level, right associativity).
Notation "' pat <- m ;; k" := (bind m (fun x => match x with pat => k end))
  (at level 61, pat pattern, m at next level, right associativity).

(** ** Package strings *)

Module strings.

Fixpoint hasPrefix (s prefix : bytes) : bool :=
  match prefix, s with
  | [], _ => true
  | p :: prefix', c :: s' => Ascii.eqb c p && hasPrefix s' prefix'
  | _ :: _, [] => false
  end.

Fixpoint contains (s substr : bytes) : bool :=
  hasPrefix s substr ||
  match s with
  | [] => false
  | _ :: s' => contains s' substr
  end.

(** [replace old new skip s]: left-to-right replacement of the
    non-overlapping occurrences of [old] (non-empty) in [s]; [skip] counts
    the bytes of the occurrence just found that are still to be dropped. *)
Fixpoint replace (old new : bytes) (skip : nat) (s : bytes) : bytes :=
  match s with
  | [] => []
  | c :: s' =>
      match skip with
      | S k => replace old new k s'
      | O =>
          if hasPrefix s old
          then new ++ replace old new (pred (List.length old)) s'
          else c :: replace old new O s'
      end
  end.

(** [split sep skip s]: the pieces of [s] between the occurrences of [sep]
    (non-empty); there is always at least one piece. *)
Fixpoint split (sep : bytes) (skip : nat) (s : bytes) : list bytes :=
  match s with
  | [] => [[]]
  | c :: s' =>
      match skip with
      | S k => split sep k s'
      | O =>
          if hasPrefix s sep
          then [] :: split sep (pred (List.length sep)) s'
          else match split sep O s' with
               | piece :: pieces => (c :: piece) :: pieces
               | [] => [[c]]
               end
      end
  end.

(** [strings.HasPrefix(s, prefix)] *)
Definition HasPrefix (s prefix : string) : bool := hasPrefix (b s) (b prefix).

(** [strings.Contains(s, substr)] *)
Definition Contains (s substr : string) : bool := contains (b s) (b substr).

(** [strings.Replace(s, old, new, -1)], for a non-empty [old] (every call
    of the source passes a non-empty literal). *)
Definition Replace (s old new : string) : string :=
  str (replace (b old) (b new) O (b s)).

(** [strings.Split(s, sep)], for a non-empty [sep]. *)
Definition Split (s sep : string) : list string :=
  map str (split (b sep) O (b s)).

End strings.

(** ** Package strconv *)

Module strconv.

Definition digit (c : ascii) : option Z :=
  let n := Z.of_nat (nat_of_ascii c) in
  if (48 <=? n) && (n <=? 57) then Some (n - 48) else None.

Fixpoint digits (acc : Z) (s : bytes) : option Z :=
  match s with
  | [] => Some acc
  | c :: s' =>
      match digit c with
      | Some d => digits (acc * 10 + d) s'
      | None => None
      end
  end.

(** [strconv.Atoi(s)] on a 64-bit platform: the value and whether an error
    is returned with it.  A syntax error gives 0, a range error gives the
    nearest 64-bit integer. *)
Definition Atoi (s : string) : Z * bool :=
  match b s with
  | [] => (0, true)
  | c :: rest =>
      let '(neg, ds) :=
        if Ascii.eqb c "+" then (false, rest)
        else if Ascii.eqb c "-" then (true, rest)
        else (false, c :: rest) in
      match ds with
      | [] => (0, true)
      | _ =>
          match digits 0 ds with
          | None => (0, true)
          | Some un =>
              if neg
              then if un >? 2 ^ 63 then (- 2 ^ 63, true) else (- un, false)
              else if un >=? 2 ^ 63 then (2 ^ 63 - 1, true) else (un, false)
          end
      end
  end.

End strconv.

(** ** Package regexp *)

(** The fragment of Go's regular expressions the source uses: sequences of
    single-character atoms under [*] and [+] (greedy), and the anchors [^]
    and [$] (without the multi-line flag: beginning and end of the text).
    Matching is leftmost-first, as Go specifies it: at each position the
    match a backtracking matcher finds first. *)
Module regexp.

Inductive Atom :=
| Lit (c : ascii)    (* a literal character *)
| Space.             (* \s, the class [\t\n\f\r ] *)

Inductive Item :=
| One (a : Atom)
| Star (a : Atom)
| Plus (a : Atom)
| BeginText          (* ^ *)
| EndText.           (* $ *)

Definition Regexp := list Item.

Definition isSpace (c : ascii) : bool :=
  Ascii.eqb c TAB || Ascii.eqb c LF || Ascii.eqb c FF || Ascii.eqb c CR
  || Ascii.eqb c " ".

Definition accepts (a : Atom) (c : ascii) : bool :=
  match a with
  | Lit c' => Ascii.eqb c c'
  | Space => isSpace c
  end.

(** [star a k atStart s]: as many [a] as possible, then [k]; on failure of
    [k] one [a] fewer. *)
Fixpoint star (a : Atom) (k : bool -> bytes -> option nat)
    (atStart : bool) (s : bytes) : option nat :=
  match s with
  | c :: s' =>
      if accepts a c
      then match star a k false s' with
           | Some n => Some (S n)
           | None => k atStart s
           end
      else k atStart s
  | [] => k atStart s
  end.

(** [matchHere re atStart s]: the length of the match of [re] that begins
    at the current position, where [s] is the rest of the text and
    [atStart] tells whether the position is the beginning of the text. *)
Fixpoint matchHere (re : Regexp) (atStart : bool) (s : bytes) : option nat :=
  match re with
  | [] => Some O
  | BeginText :: re' => if atStart then matchHere re' atStart s else None
  | EndText :: re' =>
      match s with
      | [] => matchHere re' atStart s
      | _ :: _ => None
      end
  | One a :: re' =>
      match s with
      | c :: s' =>
          if accepts a c then option_map S (matchHere re' false s') else None
      | [] => None
      end
  | Star a :: re' => star a (matchHere re') atStart s
  | Plus a :: re' =>
      match s with
      | c :: s' =>
          if accepts a c
          then option_map S (star a (matchHere re') false s')
          else None
      | [] => None
      end
  end.

(** The loop of [Regexp.replaceAll]: the text is searched from left to
    right; the bytes outside the matches are copied, each match is
    replaced by [repl], and an empty match that abuts the preceding match
    is ignored.  [skip] counts the bytes of the current match still to be
    dropped, [abut] tells that a match ends at the current position. *)
Fixpoint scan (re : Regexp) (repl : bytes) (skip : nat)
    (atStart abut : bool) (s : bytes) {struct s} : bytes :=
  match s with
  | [] =>
      match skip with
      | S _ => []
      | O =>
          match matchHere re atStart [] with
          | Some _ => if abut then [] else repl
          | None => []
          end
      end
  | c :: s' =>
      match skip with
      | S k => scan re repl k false true s'
      | O =>
          match matchHere re atStart s with
          | Some (S n) => repl ++ scan re repl n false true s'
          | Some O =>
              (if abut then [] else repl) ++ c :: scan re repl O false false s'
          | None => c :: scan re repl O false false s'
          end
      end
  end.

(** [re.ReplaceAllString(src, repl)], for a [repl] without [$]. *)
Definition ReplaceAllString (re : Regexp) (src repl : string) : string :=
  str (scan re (b repl) O true false (b src)).

End regexp.

(** ** Package reflect *)

(** A [reflect.Value] over the types the descriptor structures are made of:
    strings, booleans and numbers, pointers, structures and slices. *)
Module reflect.

Inductive Basic :=
| Bool | Int | Int32 | Int64 | Uint8 | Uint32 | Uint64 | Float32 | Float64.

Inductive Kind :=
| Invalid
| Scalar (k : Basic)
| String
| Ptr
| Struct
| Slice.

(** A [reflect.StructField]: the field's name and the value of the
    [protobuf] key of its tag ([Tag.Get("protobuf")], empty when the tag
    has no such key). *)
Record StructField := {
  Name : string;
  Tag : string
}.

Inductive Value :=
| Zero                        (* the zero Value, of kind Invalid *)
| StringOf (s : string)       (* a value of type string *)
| ScalarOf (k : Basic)        (* a boolean or a number *)
| NilPtr (pointee : Kind)     (* a nil pointer to a type of kind [pointee] *)
| PtrTo (elem : Value)        (* a non-nil pointer *)
| StructOf (fields : list (StructField * Value))
| SliceOf (elems : list Value).

Definition kind (v : Value) : Kind :=
  match v with
  | Zero => Invalid
  | StringOf _ => String
  | ScalarOf k => Scalar k
  | NilPtr _ | PtrTo _ => Ptr
  | StructOf _ => Struct
  | SliceOf _ => Slice
  end.

(** [v.Elem()] of a pointer: the zero Value when the pointer is nil. *)
Definition Elem (v : Value) : Value :=
  match v with
  | PtrTo elem => elem
  | _ => Zero
  end.

(** [v.FieldByName(name)]: the zero Value when there is no such field. *)
Fixpoint fieldByName (name : string) (fields : list (StructField * Value))
    : Value :=
  match fields with
  | [] => Zero
  | (f, v) :: fields' =>
      if String.eqb (Name f) name then v else fieldByName name fields'
  end.

Definition FieldByName (v : Value) (name : string) : Value :=
  match v with
  | StructOf fields => fieldByName name fields
  | _ => Zero
  end.

End reflect.

(** ** Package deftree: associate_comments.go *)

(** The errors [buildNamePath] and [getProtobufField] build with
    [fmt.Errorf], with the values their messages print. *)
Inductive Error :=
| ErrNoProtoField (proto_field : Z)
    (* Couldn't find a proto field with the given index '%v' *)
| ErrExpectedStruct (k : reflect.Kind)
    (* walkNextStruct expected struct, found '%v' *)
| ErrFieldLabel (path : list Z) (node : reflect.Value)
    (* Comment somehow attached to a field label, time to panic! *)
| ErrSecondItem (index : Z) (len : nat).
    (* Second item in path ('%v') is longer than length of current field ('%v'). *)

Definition Res := Outcome Error.

(** [cleanStr] makes strings nicely printable. *)
Definition cleanStr (s : string) : string :=
  let cleanval := strings.Replace s (String LF "") "\n" in
  let cleanval := strings.Replace cleanval (String TAB "") "\t" in
  let cleanval := strings.Replace cleanval (String DQUOTE "") (String "\" (String DQUOTE "")) in
  cleanval.

(** [protoFieldLabel] parses a protobuf tag to return the 'label' of the
    field, if it exists. *)
Definition protoFieldLabel (proto_tag : string) : string :=
  let comma_split := strings.Split proto_tag "," in
  match nth_error comma_split 3 with
  | Some part =>
      let eq_split := strings.Split part "=" in
      match nth_error eq_split 1 with
      | Some label => label
      | None => ""
      end
  | None => ""
  end.

(** The protobuf field number [pfield_n] the loop of [getProtobufField]
    computes for a field with the given tag: -1 when the field has no tag;
    [strings.Split(tag, ",")[1]] panics when the tag has no comma. *)
Definition tagFieldNumber (tag : string) : Res Z :=
  if (String.length tag =? 0)%nat then Ret (-1)
  else match nth_error (strings.Split tag ",") 1 with
       | Some part => Ret (fst (strconv.Atoi part))
       | None => Panic PanicIndexOutOfRange
       end.

(** The loop of [getProtobufField] over the fields of the struct type, from
    field [n] on: the first field whose tag carries [proto_field], with its
    label. *)
Fixpoint findProtobufField (proto_field : Z)
    (fields : list (reflect.StructField * reflect.Value))
    : Res (option (reflect.Value * string)) :=
  match fields with
  | [] => Ret None
  | (typeField, value) :: fields' =>
      let tag := reflect.Tag typeField in
      let field_label := protoFieldLabel tag in
      pfield_n <- tagFieldNumber tag ;;
      if negb (pfield_n =? -1) && (pfield_n =? proto_field)
      then Ret (Some (value, field_label))
      else findProtobufField proto_field fields'
  end.

(** [getProtobufField]: given a value representing a protobuf message,
    return the go-field which has the protobuf "field number"
    [proto_field], and its label. *)
Definition getProtobufField (proto_field : Z) (proto_msg : reflect.Value)
    : Res (reflect.Value * string) :=
  match proto_msg with
  | reflect.Zero => Panic PanicZeroValueType
  | reflect.StructOf fields =>
      found <- findProtobufField proto_field fields ;;
      match found with
      | Some r => Ret r
      | None => Fail (ErrNoProtoField proto_field)
      end
  | _ => Panic PanicNumFieldOfNonStruct
  end.

(** [node.Len()] *)
Definition Len (node : reflect.Value) : Res nat :=
  match node with
  | reflect.SliceOf elems => Ret (List.length elems)
  | reflect.StringOf s => Ret (String.length s)
  | _ => Panic PanicLenOfNonSlice
  end.

(** [node.Index(index)]: the element of a slice, or the byte of a string
    (a value of kind Uint8). *)
Definition Index (node : reflect.Value) (index : Z) : Res reflect.Value :=
  match node with
  | reflect.SliceOf elems =>
      if index <? 0 then Panic PanicSliceIndex
      else match nth_error elems (Z.to_nat index) with
           | Some v => Ret v
           | None => Panic PanicSliceIndex
           end
  | reflect.StringOf s =>
      if index <? 0 then Panic PanicStringIndex
      else match nth_error (b s) (Z.to_nat index) with
           | Some _ => Ret (reflect.ScalarOf reflect.Uint8)
           | None => Panic PanicStringIndex
           end
  | _ => Panic PanicIndexOfNonSlice
  end.

(** [getCollectionIndex]: the [index]th item of the collection [node]. *)
Definition getCollectionIndex (node : reflect.Value) (index : Z)
    : Res reflect.Value :=
  len <- Len node ;;
  if index >=? Z.of_nat len
  then Panic (PanicCannotAccessIndex len index)
  else Index node index.

(** The name of a struct: its field [Name], asserted to be a pointer to
    string and dereferenced. *)
Definition structName (node : reflect.Value) : Res string :=
  match reflect.FieldByName node "Name" with
  | reflect.Zero => Panic PanicZeroValueInterface
  | reflect.PtrTo (reflect.StringOf s) => Ret s
  | reflect.NilPtr reflect.String => Panic PanicNilDereference
  | _ => Panic PanicInterfaceConversion
  end.

(** The first statements of [buildNamePath]: the log call, which asks for
    [node.Type()], and the [switch] on [node.Kind()].  The result is
    [st_name] and the value of [node] after the switch. *)
Definition nameOfNode (node : reflect.Value) : Res (string * reflect.Value) :=
  match node with
  | reflect.Zero => Panic PanicZeroValueType     (* node.Type() *)
  | reflect.StringOf s => Ret (s, node)          (* case reflect.String *)
  | reflect.NilPtr _ | reflect.PtrTo _ =>        (* case reflect.Ptr *)
      Ret ("", reflect.Elem node)
  | reflect.StructOf _ =>                        (* default, a struct *)
      st_name <- structName node ;;
      Ret (st_name, node)
  | reflect.ScalarOf _ | reflect.SliceOf _ =>    (* default, not a struct *)
      Fail (ErrExpectedStruct (reflect.kind node))
  end.

(** "Dereference the returned field, if it exists": the value of
    [clean_next] for the [next_node] taken from the collection. *)
Definition cleanNext (next_node : reflect.Value) : reflect.Value :=
  match reflect.kind next_node with
  | reflect.Ptr => reflect.Elem next_node
  | _ => next_node
  end.

(** [buildNamePath] converts a SourceLocation path into a "NamePath".  The
    recursion is on the path: [path1_] is [path[1:]] and [path2_] is
    [path[2:]]. *)
Fixpoint buildNamePath (path : list Z) (node : reflect.Value) {struct path}
    : Res (list string) :=
  '(st_name, node) <- nameOfNode node ;;
  match path with
  | [] => Ret [st_name]
  | path0 :: path1_ =>
      '(field, _) <- getProtobufField path0 node ;;
      match path1_ with
      | [] => Fail (ErrFieldLabel path node)
      | path1 :: path2_ =>
          match field with
          | reflect.SliceOf elems =>
              if path1 >=? Z.of_nat (List.length elems)
              then Fail (ErrSecondItem path1 (List.length elems))
              else
                next_node <- getCollectionIndex field path1 ;;
                let clean_next := cleanNext next_node in
                rv <- buildNamePath path2_ clean_next ;;
                Ret (st_name :: rv)
          | _ =>
              rv <- buildNamePath path1_ field ;;
              Ret (st_name :: rv)
          end
      end
  end.

(** The three regular expressions of [scrubComments]. *)
Definition beginning_slash : regexp.Regexp :=     (* "^/*\\s*" *)
  [regexp.BeginText; regexp.Star (regexp.Lit SLASH); regexp.Star regexp.Space].
Definition trailing_whitespace : regexp.Regexp := (* "\\s*$" *)
  [regexp.Star regexp.Space; regexp.EndText].
Definition line_trail_ws : regexp.Regexp :=       (* "\\s+\n" *)
  [regexp.Plus regexp.Space; regexp.One (regexp.Lit LF)].

(** [scrubComments] takes a comment and scrubs it of any extraneous
    artifacts. *)
Definition scrubComments (comment : string) : string :=
  let comment := strings.Replace comment (String LF "/ ") (String LF "") in
  let comment := strings.Replace comment (String LF "/") (String LF "") in
  let comment := regexp.ReplaceAllString beginning_slash comment "" in
  let comment := regexp.ReplaceAllString trailing_whitespace comment "" in
  let comment := regexp.ReplaceAllString line_trail_ws comment (String LF "") in
  comment.

(** *** One activation of [buildNamePath]

    The same function read one call at a time, with Go's slice expressions:
    an activation either returns, or calls [buildNamePath] once more and
    then prepends [st_name] to the result of that call. *)
Inductive Activation :=
| Returns (r : Res (list string))
| RecurseField (st_name : string) (path' : list Z) (field : reflect.Value)
    (* rv, err := buildNamePath(path[1:], field) *)
| RecurseElem (st_name : string) (path' : list Z) (clean_next : reflect.Value).
    (* rv, err := buildNamePath(path[2:], clean_next) *)

Definition activation (path : list Z) (node : reflect.Value) : Activation :=
  match nameOfNode node with
  | Panic p => Returns (Panic p)
  | Fail err => Returns (Fail err)
  | Ret (st_name, node) =>
      if (List.length path =? 0)%nat then Returns (Ret [st_name])
      else
        match getProtobufField (nth 0 path 0) node with
        | Panic p => Returns (Panic p)
        | Fail err => Returns (Fail err)
        | Ret (field, _) =>
            if (List.length path =? 1)%nat
            then Returns (Fail (ErrFieldLabel path node))
            else
              match field with
              | reflect.SliceOf elems =>
                  if nth 1 path 0 >=? Z.of_nat (List.length elems)
                  then Returns (Fail (ErrSecondItem (nth 1 path 0)
                                        (List.length elems)))
                  else
                    match getCollectionIndex field (nth 1 path 0) with
                    | Ret next_node =>
                        RecurseElem st_name (skipn 2 path) (cleanNext next_node)
                    | Fail err => Returns (Fail err)
                    | Panic p => Returns (Panic p)
                    end
              | _ => RecurseField st_name (skipn 1 path) field
              end
        end
  end.

(** What an activation does with the result of its recursive call. *)
Definition prepend (st_name : string) (r : Res (list string))
    : Res (list string) :=
  rv <- r ;; Ret (st_name :: rv).

(** [buildNamePath] run with a bound on the depth of the recursion: [None]
    when the bound is reached. *)
Fixpoint buildNamePath_fuel (fuel : nat) (path : list Z) (node : reflect.Value)
    : option (Res (list string)) :=
  match fuel with
  | O => None
  | S fuel' =>
      match activation path node with
      | Returns r => Some r
      | RecurseField st_name path' node'
      | RecurseElem st_name path' node' =>
          option_map (prepend st_name) (buildNamePath_fuel fuel' path' node')
      end
  end.

(** [Reaches path node path' node']: the call [buildNamePath(path, node)]
    leads, through its chain of recursive calls, to the call
    [buildNamePath(path', node')]. *)
Inductive Reaches : list Z -> reflect.Value -> list Z -> reflect.Value -> Prop :=
| reaches_here path node : Reaches path node path node
| reaches_field path node st_name path1 node1 path' node' :
    activation path node = RecurseField st_name path1 node1 ->
    Reaches path1 node1 path' node' ->
    Reaches path node path' node'
| reaches_elem path node st_name path1 node1 path' node' :
    activation path node = RecurseElem st_name path1 node1 ->
    Reaches path1 node1 path' node' ->
    Reaches path node path' node'.

(** The panic is the one [getCollectionIndex] raises itself. *)
Definition isCannotAccessIndex (p : PanicValue) : Prop :=
  match p with
  | PanicCannotAccessIndex _ _ => True
  | _ => False
  end.

(** No member of the struct type carries the field number [proto_field]:
    every member is untagged or tagged with another number. *)
Definition noMemberTagged (proto_field : Z)
    (fields : list (reflect.StructField * reflect.Value)) : bool :=
  forallb
    (fun fv =>
       let tag := reflect.Tag (fst fv) in
       (String.length tag =? 0)%nat ||
       match tagFieldNumber tag with
       | Ret n => negb (n =? proto_field)
       | _ => false
       end)
    fields.

(** *** The driver *)

(** A [SourceCodeInfo_Location], through the accessors the driver uses. *)
Record Location := {
  Path : list Z;
  GetLeadingComments : string;        (* empty when there is none *)
  LeadingDetachedComments : list string
}.

(** A [FileDescriptorProto], through the accessors the driver uses. *)
Record FileDescriptorProto := {
  GetName : string;
  ValueOf : reflect.Value;            (* reflect.ValueOf( *file ) *)
  GetLocation : list Location         (* file.GetSourceCodeInfo().GetLocation() *)
}.

Record CodeGeneratorRequest := {
  FileToGenerate : list string;
  GetProtoFile : list FileDescriptorProto
}.

(** [log.Fields] of the driver. *)
Record Fields := {
  location_ : list Z;
  leading_comment : string;
  leading_detached_comment : list string
}.

(** What the driver does to the outside, in order: its log calls, its call
    of the resolver and its calls of the Deftree. *)
Inductive Event :=
| LogDebug (lf : Fields) (msg : string)            (* log.WithFields(lf).Debug(msg) *)
| LogDebugf (lead : string) (err : Error) (* log.Debugf("Couldn't place ...") *)
| LogErrorf (err : string)                 (* log.Errorf("cannot set comment: %v") *)
| CallBuildNamePath (path : list Z)
| CallSetDescription (text : string)
| CallSetComment (name_path : list string) (text : string).

Section Driver.

(** The Deftree interface: [SetDescription] always succeeds, [SetComment]
    returns the error's message when it fails. *)
Variable Deftree : Type.
Variable SetDescription : Deftree -> string -> Deftree.
Variable SetComment :
  Deftree -> list string -> string -> Deftree * option string.

Record World := {
  dt : Deftree;
  trace : list Event
}.

(** A run of driver code either completes or is aborted by a panic. *)
Inductive Run (A : Type) :=
| Completed (a : A) (w : World)
| Aborted (p : PanicValue) (w : World).

Arguments Completed {A} a w.
Arguments Aborted {A} p w.

Definition M (A : Type) := World -> Run A.

Definition ret {A} (a : A) : M A := fun w => Completed a w.

Definition andThen {A B} (m : M A) (k : A -> M B) : M B :=
  fun w =>
    match m w with
    | Completed a w' => k a w'
    | Aborted p w' => Aborted p w'
    end.

Notation "x <~ m ;; k" := (andThen m (fun x => k))
  (at level 61, m at next level, right associativity).
Notation "m ;;; k" := (andThen m (fun _ => k))
  (at level 61, right associativity).

Definition emit (e : Event) : M unit :=
  fun w => Completed tt {| dt := dt w; trace := trace w ++ [e] |}.

Definition callSetDescription (text : string) : M unit :=
  fun w =>
    Completed tt {| dt := SetDescription (dt w) text;
                    trace := trace w ++ [CallSetDescription text] |}.

Definition callSetComment (name_path : list string) (text : string)
    : M (option string) :=
  fun w =>
    let '(dt', err) := SetComment (dt w) name_path text in
    Completed err {| dt := dt';
                     trace := trace w ++ [CallSetComment name_path text] |}.

(** The call of the resolver: its pair of results, or its panic. *)
Definition callBuildNamePath (path : list Z) (node : reflect.Value)
    : M (list string + Error) :=
  fun w =>
    let w' := {| dt := dt w; trace := trace w ++ [CallBuildNamePath path] |} in
    match buildNamePath path node with
    | Ret name_path => Completed (inl name_path) w'
    | Fail err => Completed (inr err) w'
    | Panic p => Aborted p w'
    end.

(** The condition under which a location is looked at. *)
Definition hasComment (location : Location) : bool :=
  (1 <? String.length (GetLeadingComments location))%nat
  || (1 <? List.length (LeadingDetachedComments location))%nat.

Definition fieldsOf (location : Location) : Fields :=
  {| location_ := Path location;
     leading_comment := cleanStr (GetLeadingComments location);
     leading_detached_comment := LeadingDetachedComments location |}.

(** The body of the loop over the locations of a file. *)
Definition associateLocation (file : FileDescriptorProto)
    (location : Location) : M unit :=
  let lead := GetLeadingComments location in
  if hasComment location then
    let lf := fieldsOf location in
    if (List.length (Path location) =? 1)%nat then
      emit (LogDebug lf "Comment describes package name") ;;;
      callSetDescription (scrubComments lead)
    else
      emit (LogDebug lf "Comment is attached to some location, finding") ;;;
      r <~ callBuildNamePath (Path location) (ValueOf file) ;;
      match r with
      | inr err => emit (LogDebugf (cleanStr lead) err)
      | inl name_path =>
          err <~ callSetComment name_path (scrubComments lead) ;;
          match err with
          | Some e =>
              if negb (strings.Contains e "cannot find node")
              then emit (LogErrorf e)
              else ret tt
          | None => ret tt
          end
      end
  else ret tt.

Fixpoint forEach {A} (body : A -> M unit) (l : list A) : M unit :=
  match l with
  | [] => ret tt
  | x :: l' => body x ;;; forEach body l'
  end.

(** "Skip comments for files outside the main one being considered". *)
Definition skipFile (req : CodeGeneratorRequest) (file : FileDescriptorProto)
    : bool :=
  fold_left
    (fun skip gen => if String.eqb (GetName file) gen then false else skip)
    (FileToGenerate req) true.

Definition associateFile (req : CodeGeneratorRequest)
    (file : FileDescriptorProto) : M unit :=
  if skipFile req file then ret tt
  else forEach (associateLocation file) (GetLocation file).

(** [AssociateComments] walks the request finding comments and copying
    them into their location within the deftree. *)
Definition AssociateComments (req : CodeGeneratorRequest) : M unit :=
  forEach (associateFile req) (GetProtoFile req).

(** The world a run ends in. *)
Definition worldOf {A} (r : Run A) : World :=
  match r with
  | Completed _ w => w
  | Aborted _ w => w
  end.

(** The locations the driver looks at, in order, each with its file. *)
Definition workList (req : CodeGeneratorRequest)
    : list (FileDescriptorProto * Location) :=
  flat_map
    (fun file =>
       if skipFile req file then []
       else map (pair file) (filter hasComment (GetLocation file)))
    (GetProtoFile req).

(** The resolver panics on the location: the driver calls it, and the
    call panics. *)
Definition resolverPanics (fl : FileDescriptorProto * Location) : bool :=
  negb (List.length (Path (snd fl)) =? 1)%nat &&
  match buildNamePath (Path (snd fl)) (ValueOf (fst fl)) with
  | Panic _ => true
  | _ => false
  end.

End Driver.

Arguments Completed {Deftree A} a w.
Arguments Aborted {Deftree A} p w.
Arguments dt {Deftree} w.
Arguments trace {Deftree} w.
Arguments Build_World {Deftree} dt trace.
Arguments worldOf {Deftree A} r.
Arguments associateLocation {Deftree} SetDescription SetComment file location w.
Arguments associateFile {Deftree} SetDescription SetComment req file w.
Arguments AssociateComments {Deftree} SetDescription SetComment req w.
Arguments forEach {Deftree A} body l w.

(** The log fields with which the driver opened the work on a location. *)
Definition opened (evs : list Event) : list Fields :=
  flat_map (fun e => match e with LogDebug lf _ => [lf] | _ => [] end) evs.

(** The texts the driver handed to the Deftree. *)
Definition written (evs : list Event) : list string :=
  flat_map
    (fun e =>
       match e with
       | CallSetDescription text => [text]
       | CallSetComment _ text => [text]
       | _ => []
       end)
    evs.

(** The calls of the resolver. *)
Definition resolved (evs : list Event) : list (list Z) :=
  flat_map (fun e => match e with CallBuildNamePath p => [p] | _ => [] end) evs.

(** The events with which the driver begins the work on a location that is
    not the package's. *)
Definition opening (location : Location) : list Event :=
  [LogDebug (fieldsOf location) "Comment is attached to some location, finding";
   CallBuildNamePath (Path location)].

(** What the driver logs after [SetComment] returned [err]. *)
Definition afterSetComment (err : option string) : list Event :=
  match err with
  | Some e =>
      if strings.Contains e "cannot find node" then [] else [LogErrorf e]
  | None => []
  end.

(** *** Shapes of comments *)

(** The notions in which the behaviour of the three regular expressions of
    [scrubComments] is stated. *)

Definition isSlash (c : ascii) : bool := Ascii.eqb c SLASH.

Fixpoint dropWhile (p : ascii -> bool) (s : bytes) : bytes :=
  match s with
  | c :: s' => if p c then dropWhile p s' else s
  | [] => []
  end.

Definition allSpace (s : bytes) : bool := forallb regexp.isSpace s.

(** The text begins with a white space character. *)
Definition startsSpace (s : bytes) : bool :=
  match s with
  | c :: _ => regexp.isSpace c
  | [] => false
  end.

(** The text begins with a newline. *)
Definition startsLF (s : bytes) : bool :=
  match s with
  | c :: _ => Ascii.eqb c LF
  | [] => false
  end.

(** The text ends with a white space character. *)
Fixpoint endsSpace (s : bytes) : bool :=
  match s with
  | [] => false
  | c :: s' =>
      match s' with
      | [] => regexp.isSpace c
      | _ :: _ => endsSpace s'
      end
  end.

(** The text begins with white space up to and including a newline. *)
Fixpoint lfAhead (s : bytes) : bool :=
  match s with
  | [] => false
  | c :: s' => (regexp.isSpace c && lfAhead s') || Ascii.eqb c LF
  end.

(** No white space character of the text is followed by a newline. *)
Fixpoint noSpaceLF (s : bytes) : bool :=
  match s with
  | [] => true
  | c :: s' => negb (regexp.isSpace c && startsLF s') && noSpaceLF s'
  end.

(** The three replacements of [scrubComments] on the bytes of the comment,
    and the match of white space up to a newline that [line_trail_ws]
    continues with after its first white space character. *)
Abbreviation ltrim := (regexp.scan beginning_slash [] O true false).
Abbreviation rtrim := (regexp.scan trailing_whitespace [] O false false).
Abbreviation collapse := (regexp.scan line_trail_ws [LF] O false false).
Abbreviation toLF :=
  (regexp.star regexp.Space (regexp.matchHere [regexp.One (regexp.Lit LF)]) false).

(** ** Descriptors and a Deftree to run the code on *)

(** Values of the generated descriptor types, with the struct tags of
    descriptor.pb.go, and a small Deftree. *)
Module Example.

Definition member (name tag : string) (v : reflect.Value)
    : reflect.StructField * reflect.Value :=
  ({| reflect.Name := name; reflect.Tag := tag |}, v).

Definition stringPtr (s : string) : reflect.Value :=
  reflect.PtrTo (reflect.StringOf s).

Definition noBytes : reflect.Value := reflect.SliceOf [].

(** A [FieldDescriptorProto]. *)
Definition fieldDescriptor (name : string) : reflect.Value :=
  reflect.StructOf
    [ member "Name" "bytes,1,opt,name=name" (stringPtr name);
      member "Number" "varint,3,opt,name=number"
        (reflect.PtrTo (reflect.ScalarOf reflect.Int32));
      member "Label"
        "varint,4,opt,name=label,enum=google.protobuf.FieldDescriptorProto_Label"
        (reflect.PtrTo (reflect.ScalarOf reflect.Int32));
      member "TypeName" "bytes,6,opt,name=type_name,json=typeName"
        (reflect.NilPtr reflect.String);
      member "Options" "bytes,8,opt,name=options" (reflect.NilPtr reflect.Struct);
      member "XXX_unrecognized" "" noBytes ].

(** A [DescriptorProto]: a message and its fields. *)
Definition descriptor (name : string) (fields : list reflect.Value)
    : reflect.Value :=
  reflect.StructOf
    [ member "Name" "bytes,1,opt,name=name" (stringPtr name);
      member "Field" "bytes,2,rep,name=field"
        (reflect.SliceOf (map reflect.PtrTo fields));
      member "NestedType" "bytes,3,rep,name=nested_type,json=nestedType"
        (reflect.SliceOf []);
      member "EnumType" "bytes,4,rep,name=enum_type,json=enumType"
        (reflect.SliceOf []);
      member "Options" "bytes,7,opt,name=options" (reflect.NilPtr reflect.Struct);
      member "XXX_unrecognized" "" noBytes ].

(** A [FileDescriptorProto]: a file, its imports and its messages. *)
Definition fileDescriptor (name package : string) (imports : list string)
    (messages : list reflect.Value) : reflect.Value :=
  reflect.StructOf
    [ member "Name" "bytes,1,opt,name=name" (stringPtr name);
      member "Package" "bytes,2,opt,name=package" (stringPtr package);
      member "Dependency" "bytes,3,rep,name=dependency"
        (reflect.SliceOf (map reflect.StringOf imports));
      member "PublicDependency"
        "varint,10,rep,name=public_dependency,json=publicDependency"
        (reflect.SliceOf []);
      member "MessageType" "bytes,4,rep,name=message_type,json=messageType"
        (reflect.SliceOf (map reflect.PtrTo messages));
      member "EnumType" "bytes,5,rep,name=enum_type,json=enumType"
        (reflect.SliceOf []);
      member "Service" "bytes,6,rep,name=service" (reflect.SliceOf []);
      member "Options" "bytes,8,opt,name=options" (reflect.NilPtr reflect.Struct);
      member "SourceCodeInfo"
        "bytes,9,opt,name=source_code_info,json=sourceCodeInfo"
        (reflect.NilPtr reflect.Struct);
      member "Syntax" "bytes,12,opt,name=syntax" (stringPtr "proto3");
      member "XXX_unrecognized" "" noBytes ].

(** A [SourceCodeInfo]: a record that has no Name. *)
Definition sourceCodeInfo : reflect.Value :=
  reflect.StructOf
    [ member "Location" "bytes,1,rep,name=location" (reflect.SliceOf []);
      member "XXX_unrecognized" "" noBytes ].

Definition widget : reflect.Value := descriptor "Widget" [fieldDescriptor "id"].

Definition shop : reflect.Value :=
  fileDescriptor "shop.proto" "shop" ["base.proto"] [widget].

(** A Deftree that knows a fixed set of nodes: [SetComment] of an empty
    text fails, and [SetComment] on a name path that is not a node fails
    with "cannot find node". *)
Record Tree := {
  description : string;
  nodes : list (list string);
  comments : list (list string * string)
}.

Definition SetDescription (t : Tree) (text : string) : Tree :=
  {| description := text; nodes := nodes t; comments := comments t |}.

Definition isNode (t : Tree) (name_path : list string) : bool :=
  existsb (fun n => if list_eq_dec string_dec n name_path then true else false)
    (nodes t).

Definition SetComment (t : Tree) (name_path : list string) (text : string)
    : Tree * option string :=
  if (String.length text =? 0)%nat then (t, Some "empty comment")
  else if isNode t name_path
  then ({| description := description t; nodes := nodes t;
           comments := (name_path, text) :: comments t |}, None)
  else (t, Some "cannot find node in the tree").

Definition emptyTree : Tree :=
  {| description := "";
     nodes := [["shop.proto"; "Widget"]; ["shop.proto"; "Widget"; "id"]];
     comments := [] |}.

Definition start : World Tree := {| dt := emptyTree; trace := [] |}.

Definition at_ (path : list Z) (lead : string) (detached : list string)
    : Location :=
  {| Path := path; GetLeadingComments := lead;
     LeadingDetachedComments := detached |}.

(** The comments of the examples: "// Foo is bar." and a newline; a block
    comment of three lines, and what is left of it; two slashes after a
    newline. *)
Definition fooIsBar : string := ("// Foo is bar." ++ String LF "")%string.

Definition blockComment : string :=
  ("/* multi" ++ String LF " * line" ++ String LF " */")%string.

Definition blockScrubbed : string :=
  ("* multi" ++ String LF " * line" ++ String LF " */")%string.

Definition twoSlashes : string := ("a" ++ String LF "//b")%string.

Definition shopFile (locations : list Location) : FileDescriptorProto :=
  {| GetName := "shop.proto"; ValueOf := shop; GetLocation := locations |}.

(** A file to generate whose descriptor value is the zero Value: the
    resolver panics on it whatever the path. *)
Definition brokenFile : FileDescriptorProto :=
  {| GetName := "shop.proto"; ValueOf := reflect.Zero; GetLocation := [] |}.

Definition request (locations : list Location) : CodeGeneratorRequest :=
  {| FileToGenerate := ["shop.proto"]; GetProtoFile := [shopFile locations] |}.

(** Locations of shop.proto: the package, an index out of bounds, an
    import the tree has no node for, a message with detached comments
    only, a field. *)
Definition thePackage : Location := at_ [2] "// General package" [].
Definition lost : Location := at_ [4; 5] "// lost" [].
Definition anImport : Location := at_ [3; 0] "// an import" [].
Definition detachedOnly : Location := at_ [4; 0] "" ["// one"; "// two"].
Definition theId : Location := at_ [4; 0; 2; 0] "// the id" [].

Definition fiveLocations : list Location :=
  [thePackage; lost; anImport; detachedOnly; theId].

(** Locations with a comment and a path no descriptor has: a negative
    index, and an index into the package name. *)
Definition negativeIndex : Location := at_ [4; -1] "// bad" [].
Definition intoPackage : Location := at_ [2; 0] "// bad" [].

Definition aWidget : Location := at_ [4; 0] "// A widget." [].

End Example.

(** ** Notions for the further properties *)

(** The work of the driver on one location of the work list. *)
Definition workOn {Deftree : Type}
    (SetDescription : Deftree -> string -> Deftree)
    (SetComment : Deftree -> list string -> string -> Deftree * option string)
    (fl : FileDescriptorProto * Location) : M Deftree unit :=
  associateLocation SetDescription SetComment (fst fl) (snd fl).

(** The name paths the driver handed to [SetComment]. *)
Definition placed (evs : list Event) : list (list string) :=
  flat_map
    (fun e => match e with CallSetComment name_path _ => [name_path] | _ => [] end)
    evs.

(** [Subseq s t]: [s] is [t] with some of its elements deleted. *)
Inductive Subseq {A : Type} : list A -> list A -> Prop :=
| subseq_nil : Subseq [] []
| subseq_drop x s t : Subseq s t -> Subseq s (x :: t)
| subseq_keep x s t : Subseq s t -> Subseq (x :: s) (x :: t).

(** * Properties of the resolver *)

Lemma structName_struct node name :
  structName node = Ret name -> exists fields, node = reflect.StructOf fields.
Proof.
  destruct node; simpl; try discriminate.
  intros _. eauto.
Qed.

Lemma nameOfNode_struct fields name :
  structName (reflect.StructOf fields) = Ret name ->
  nameOfNode (reflect.StructOf fields) = Ret (name, reflect.StructOf fields).
Proof.
  intros H. unfold nameOfNode. rewrite H. reflexivity.
Qed.

(** A recursive call is made on a strictly shorter path: one element
    shorter for a field that is not a slice, two for an element of a slice. *)
Lemma activation_field_length path node st_name path' field :
  activation path node = RecurseField st_name path' field ->
  path' = skipn 1 path /\ List.length path = S (List.length path').
Proof.
  unfold activation.
  destruct (nameOfNode node) as [[st n]| |]; try discriminate.
  destruct path as [|p0 [|p1 rest]]; simpl; try discriminate.
  - destruct (getProtobufField p0 n) as [[f l]| |]; discriminate.
  - destruct (getProtobufField p0 n) as [[f l]| |]; try discriminate.
    destruct f; try (intros H; inversion H; subst; split; reflexivity).
    destruct (p1 >=? _); try discriminate.
    destruct (getCollectionIndex _ _); discriminate.
Qed.

Lemma activation_elem_length path node st_name path' clean_next :
  activation path node = RecurseElem st_name path' clean_next ->
  path' = skipn 2 path /\ List.length path = S (S (List.length path')).
Proof.
  unfold activation.
  destruct (nameOfNode node) as [[st n]| |]; try discriminate.
  destruct path as [|p0 [|p1 rest]]; simpl; try discriminate.
  - destruct (getProtobufField p0 n) as [[f l]| |]; discriminate.
  - destruct (getProtobufField p0 n) as [[f l]| |]; try discriminate.
    destruct f; try discriminate.
    destruct (p1 >=? _); try discriminate.
    destruct (getCollectionIndex _ _); try discriminate.
    intros H; inversion H; subst; split; reflexivity.
Qed.

(** The recursive function is its activation followed by the recursive
    call the activation asks for. *)
Lemma buildNamePath_activation path node :
  buildNamePath path node =
  match activation path node with
  | Returns r => r
  | RecurseField st_name path' node'
  | RecurseElem st_name path' node' => prepend st_name (buildNamePath path' node')
  end.
Proof.
  unfold activation.
  destruct path as [|p0 [|p1 rest]]; simpl;
    destruct (nameOfNode node) as [[st n]| |]; simpl; try reflexivity.
  - destruct (getProtobufField p0 n) as [[f l]| |]; reflexivity.
  - destruct (getProtobufField p0 n) as [[f l]| |]; simpl; try reflexivity.
    destruct f; try reflexivity.
    destruct (p1 >=? _); try reflexivity.
    destruct (getCollectionIndex _ _); reflexivity.
Qed.

Lemma buildNamePath_fuel_enough fuel : forall path node,
  (List.length path < fuel)%nat ->
  buildNamePath_fuel fuel path node = Some (buildNamePath path node).
Proof.
  induction fuel as [|fuel IH]; intros path node Hlt; [lia|].
  simpl. rewrite (buildNamePath_activation path node).
  destruct (activation path node) as [r|st p' n'|st p' n'] eqn:Hact.
  - reflexivity.
  - apply activation_field_length in Hact as [_ Hlen].
    rewrite IH by lia. reflexivity.
  - apply activation_elem_length in Hact as [_ Hlen].
    rewrite IH by lia. reflexivity.
Qed.

Lemma prepend_Fail st_name r err :
  r = Fail err -> prepend st_name r = Fail err.
Proof. intros ->. reflexivity. Qed.

Lemma buildNamePath_reaches path node path' node' :
  Reaches path node path' node' ->
  forall err, buildNamePath path' node' = Fail err ->
  buildNamePath path node = Fail err.
Proof.
  induction 1 as [| path node st p1 n1 p' n' Hact _ IH
                  | path node st p1 n1 p' n' Hact _ IH]; intros err Herr.
  - exact Herr.
  - rewrite buildNamePath_activation, Hact. apply prepend_Fail, IH, Herr.
  - rewrite buildNamePath_activation, Hact. apply prepend_Fail, IH, Herr.
Qed.

Lemma findProtobufField_none proto_field fields :
  noMemberTagged proto_field fields = true ->
  findProtobufField proto_field fields = Ret None.
Proof.
  unfold noMemberTagged.
  induction fields as [|[f v] fields IH]; cbn [forallb fst findProtobufField];
    intros H; [reflexivity|].
  apply andb_prop in H as [Hf Hrest].
  destruct (String.length (reflect.Tag f) =? 0)%nat eqn:El.
  - unfold tagFieldNumber. rewrite El. cbn [bind].
    destruct (-1 =? proto_field); cbn; auto.
  - cbn [orb] in Hf.
    destruct (tagFieldNumber (reflect.Tag f)) as [n| |]; try discriminate.
    cbn [bind]. apply negb_true_iff in Hf. rewrite Hf, andb_false_r. auto.
Qed.

(** * The claims about the resolver *)

(** C1. For every file value whose message field, of field number [m],
    holds one message named "Widget", resolving [[m; 0]] against the file
    gives the name path of the file's name and "Widget"; and when "Widget"
    has a fields collection, of field number [f], holding one field named
    "id", resolving [[m; 0; f; 0]] gives the file's name, "Widget", "id". *)
Theorem C1_resolve_message_and_field
    (file : reflect.Value) (file_name : string) (m : Z)
    (message widget : reflect.Value) (label : string) :
  structName file = Ret file_name ->
  getProtobufField m file = Ret (reflect.SliceOf [message], label) ->
  cleanNext message = widget ->
  structName widget = Ret "Widget" ->
  buildNamePath [m; 0] file = Ret [file_name; "Widget"] /\
  forall (f : Z) (field id_field : reflect.Value) (label' : string),
    getProtobufField f widget = Ret (reflect.SliceOf [field], label') ->
    cleanNext field = id_field ->
    structName id_field = Ret "id" ->
    buildNamePath [m; 0; f; 0] file = Ret [file_name; "Widget"; "id"].
Proof.
  intros Hfile Hm Hw Hwidget.
  destruct (structName_struct _ _ Hfile) as [fs ->].
  destruct (structName_struct _ _ Hwidget) as [ws Ews].
  assert (Hn : nameOfNode widget = Ret ("Widget", widget)).
  { rewrite Ews in *. apply nameOfNode_struct, Hwidget. }
  split.
  - cbn [buildNamePath]. rewrite (nameOfNode_struct _ _ Hfile). cbn [bind].
    rewrite Hm. cbn. rewrite Hw, Hn. reflexivity.
  - intros f field id_field label' Hf Hid Hname.
    destruct (structName_struct _ _ Hname) as [ids Eids].
    assert (Hn' : nameOfNode id_field = Ret ("id", id_field)).
    { rewrite Eids in *. apply nameOfNode_struct, Hname. }
    cbn [buildNamePath]. rewrite (nameOfNode_struct _ _ Hfile). cbn [bind].
    rewrite Hm. cbn. rewrite Hw, Hn. cbn [bind].
    rewrite Hf. cbn. rewrite Hid, Hn'. reflexivity.
Qed.

Lemma C1_resolve_message_and_field_witness :
  buildNamePath [4; 0] Example.shop = Ret ["shop.proto"; "Widget"] /\
  buildNamePath [4; 0; 2; 0] Example.shop = Ret ["shop.proto"; "Widget"; "id"].
Proof.
  destruct (C1_resolve_message_and_field Example.shop "shop.proto" 4
              (reflect.PtrTo Example.widget) Example.widget "message_type")
    as [H2 H3]; try reflexivity.
  split; [exact H2|].
  apply (H3 2 (reflect.PtrTo (Example.fieldDescriptor "id"))
            (Example.fieldDescriptor "id") "field"); reflexivity.
Defined.

(** C4. Whenever the resolution of a path, at any depth, comes to a
    collection with an index greater than or equal to the collection's
    length, the resolver returns the error "Second item in path ... is
    longer than length of current field": it does not panic. *)
Theorem C4_index_out_of_bounds_is_an_error
    (path path' rest : list Z) (node node' struct_ : reflect.Value)
    (st_name label : string) (number index : Z) (elems : list reflect.Value) :
  Reaches path node path' node' ->
  path' = number :: index :: rest ->
  nameOfNode node' = Ret (st_name, struct_) ->
  getProtobufField number struct_ = Ret (reflect.SliceOf elems, label) ->
  index >= Z.of_nat (List.length elems) ->
  buildNamePath path node = Fail (ErrSecondItem index (List.length elems)).
Proof.
  intros Hreach -> Hname Hfield Hge.
  apply (buildNamePath_reaches _ _ _ _ Hreach).
  cbn [buildNamePath]. rewrite Hname. cbn [bind]. rewrite Hfield. cbn [bind].
  destruct (index >=? Z.of_nat (List.length elems)) eqn:E; [reflexivity|].
  rewrite Z.geb_leb in E. apply Z.leb_gt in E. lia.
Qed.

Lemma C4_index_out_of_bounds_is_an_error_witness :
  buildNamePath [4; 5] Example.shop = Fail (ErrSecondItem 5 1) /\
  buildNamePath [4; 0; 2; 1] Example.shop = Fail (ErrSecondItem 1 1).
Proof.
  split.
  - apply (C4_index_out_of_bounds_is_an_error [4; 5] [4; 5] [] Example.shop
             Example.shop Example.shop "shop.proto" "message_type" 4 5
             [reflect.PtrTo Example.widget]).
    + apply reaches_here.
    + reflexivity.
    + reflexivity.
    + reflexivity.
    + simpl; lia.
  - apply (C4_index_out_of_bounds_is_an_error [4; 0; 2; 1] [2; 1] []
             Example.shop Example.widget Example.widget "Widget" "field" 2 1
             [reflect.PtrTo (Example.fieldDescriptor "id")]).
    + eapply reaches_elem; [reflexivity|apply reaches_here].
    + reflexivity.
    + reflexivity.
    + reflexivity.
    + simpl; lia.
Defined.

(** C8. For every node that is a struct once the resolver has taken its
    name, and every path whose first element is a field number that no
    tagged member of the struct's type carries, the resolver returns the
    error "Couldn't find a proto field with the given index". *)
Theorem C8_unknown_field_number_is_an_error
    (node : reflect.Value) (st_name : string)
    (fields : list (reflect.StructField * reflect.Value))
    (number : Z) (rest : list Z) :
  nameOfNode node = Ret (st_name, reflect.StructOf fields) ->
  noMemberTagged number fields = true ->
  buildNamePath (number :: rest) node = Fail (ErrNoProtoField number).
Proof.
  intros Hname Hnone.
  cbn [buildNamePath]. rewrite Hname. cbn [bind].
  unfold getProtobufField.
  rewrite (findProtobufField_none _ _ Hnone). reflexivity.
Qed.

Lemma C8_unknown_field_number_is_an_error_witness :
  buildNamePath [77; 0] Example.shop = Fail (ErrNoProtoField 77) /\
  buildNamePath [9] (reflect.PtrTo Example.widget) = Fail (ErrNoProtoField 9).
Proof.
  split.
  - destruct Example.shop as [| | | | |fields|] eqn:E; try discriminate E.
    apply (C8_unknown_field_number_is_an_error _ "shop.proto" fields).
    + rewrite <- E. reflexivity.
    + inversion E. reflexivity.
  - destruct Example.widget as [| | | | |fields|] eqn:E; try discriminate E.
    apply (C8_unknown_field_number_is_an_error _ "" fields).
    + reflexivity.
    + inversion E. reflexivity.
Defined.

(** C9. The resolver terminates on every input: a recursive call is made
    on the path without its first element when the field is not a
    collection and on the path without its first two elements when it is,
    so that a recursion of depth one more than the length of the path
    always reaches the result. *)
Theorem C9_buildNamePath_terminates (path : list Z) (node : reflect.Value) :
  (forall st_name path' field,
      activation path node = RecurseField st_name path' field ->
      path' = skipn 1 path /\ List.length path = S (List.length path')) /\
  (forall st_name path' clean_next,
      activation path node = RecurseElem st_name path' clean_next ->
      path' = skipn 2 path /\ List.length path = S (S (List.length path'))) /\
  (forall fuel,
      (List.length path < fuel)%nat ->
      buildNamePath_fuel fuel path node = Some (buildNamePath path node)).
Proof.
  split; [|split].
  - intros st path' field. apply activation_field_length.
  - intros st path' clean_next. apply activation_elem_length.
  - intros fuel. apply buildNamePath_fuel_enough.
Qed.

Lemma C9_buildNamePath_terminates_witness :
  List.length [4; 0; 2; 0] = S (S (List.length [2; 0])) /\
  buildNamePath_fuel 5 [4; 0; 2; 0] Example.shop
  = Some (Ret ["shop.proto"; "Widget"; "id"]).
Proof.
  destruct (C9_buildNamePath_terminates [4; 0; 2; 0] Example.shop)
    as [_ [Helem Hfuel]].
  split.
  - apply (Helem "shop.proto" [2; 0] Example.widget). reflexivity.
  - rewrite (Hfuel 5%nat) by (simpl; lia). reflexivity.
Defined.

(** ** The panic of [getCollectionIndex] is never raised *)

Lemma structName_panic node p :
  structName node = Panic p -> ~ isCannotAccessIndex p.
Proof.
  unfold structName.
  destruct (reflect.FieldByName node "Name") as [| | |[]|[]| |];
    intros H; inversion H; subst; exact (fun F => F).
Qed.

Lemma nameOfNode_panic node p :
  nameOfNode node = Panic p -> ~ isCannotAccessIndex p.
Proof.
  destruct node; cbn [nameOfNode]; try discriminate.
  - intros H; inversion H; subst; exact (fun F => F).
  - destruct (structName _) as [s| |q] eqn:E; cbn [bind]; try discriminate.
    intros H; inversion H; subst. exact (structName_panic _ _ E).
Qed.

Lemma findProtobufField_panic proto_field fields p :
  findProtobufField proto_field fields = Panic p -> ~ isCannotAccessIndex p.
Proof.
  induction fields as [|[f v] fields IH]; cbn [findProtobufField];
    [discriminate|].
  unfold tagFieldNumber.
  destruct (String.length (reflect.Tag f) =? 0)%nat; cbn [bind].
  - destruct (negb _ && _); [discriminate|exact IH].
  - destruct (nth_error _ 1); cbn [bind].
    + destruct (negb _ && _); [discriminate|exact IH].
    + intros H; inversion H; subst; exact (fun F => F).
Qed.

Lemma getProtobufField_panic proto_field proto_msg p :
  getProtobufField proto_field proto_msg = Panic p -> ~ isCannotAccessIndex p.
Proof.
  destruct proto_msg; cbn [getProtobufField];
    try (intros H; inversion H; subst; exact (fun F => F)).
  destruct (findProtobufField _ _) as [[r|]| |q] eqn:E; cbn [bind];
    try discriminate.
  intros H; inversion H; subst. exact (findProtobufField_panic _ _ _ E).
Qed.

Lemma getCollectionIndex_guarded elems index p :
  (index >=? Z.of_nat (List.length elems)) = false ->
  getCollectionIndex (reflect.SliceOf elems) index = Panic p ->
  ~ isCannotAccessIndex p.
Proof.
  intros Hguard. unfold getCollectionIndex. cbn [Len bind]. rewrite Hguard.
  cbn [Index]. destruct (index <? 0).
  - intros H; inversion H; subst; exact (fun F => F).
  - destruct (nth_error _ _); [discriminate|].
    intros H; inversion H; subst; exact (fun F => F).
Qed.

Lemma activation_panic path node p :
  activation path node = Returns (Panic p) -> ~ isCannotAccessIndex p.
Proof.
  unfold activation.
  destruct (nameOfNode node) as [[st n]| |q] eqn:En.
  - destruct (List.length path =? 0)%nat; [discriminate|].
    destruct (getProtobufField _ n) as [[f l]| |q] eqn:Ef.
    + destruct (List.length path =? 1)%nat; [discriminate|].
      destruct f; try discriminate.
      destruct (_ >=? _) eqn:Eg; [discriminate|].
      destruct (getCollectionIndex _ _) as [next|e|q] eqn:Ei; try discriminate.
      intros H; inversion H; subst.
      exact (getCollectionIndex_guarded _ _ _ Eg Ei).
    + discriminate.
    + intros H; inversion H; subst. exact (getProtobufField_panic _ _ _ Ef).
  - discriminate.
  - intros H; inversion H; subst. exact (nameOfNode_panic _ _ En).
Qed.

(** Whatever the path and the node, [buildNamePath] does not end in the
    panic of [getCollectionIndex]: the comparison of the index with the
    length of the field comes first. *)
Lemma buildNamePath_no_index_panic path node p :
  buildNamePath path node = Panic p -> ~ isCannotAccessIndex p.
Proof.
  assert (H : forall fuel path node,
             buildNamePath_fuel fuel path node = Some (Panic p) ->
             ~ isCannotAccessIndex p).
  { induction fuel as [|fuel IH]; intros path' node'; [discriminate|].
    cbn [buildNamePath_fuel].
    destruct (activation path' node') as [r|st p1 n1|st p1 n1] eqn:Ea.
    - intros E; inversion E; subst. exact (activation_panic _ _ _ Ea).
    - destruct (buildNamePath_fuel fuel p1 n1) as [[rv|e|q]|] eqn:Er;
        cbn; try discriminate.
      intros E; inversion E; subst. exact (IH _ _ Er).
    - destruct (buildNamePath_fuel fuel p1 n1) as [[rv|e|q]|] eqn:Er;
        cbn; try discriminate.
      intros E; inversion E; subst. exact (IH _ _ Er). }
  intros E. apply (H (S (List.length path)) path node).
  rewrite buildNamePath_fuel_enough by lia. rewrite E. reflexivity.
Qed.

(** C6. When the current node is a pointer, the resolver unwraps it one
    level and gives that level of the name path the empty string as its
    name, without reading a Name: on the empty path it returns the name
    path of the empty string whatever the pointee is, and on a longer path
    the outcome is that of the field lookup and of the recursion in the
    pointee, with the empty string as the name of the level.  For a
    pointee that is a struct with a Name the outcome is, in every case,
    the outcome for the struct itself with the first name replaced by the
    empty string (an error or a panic is the same), the struct's own first
    name being its Name.  A struct whose Name cannot be read makes the
    resolver panic when it is the current node itself. *)
Theorem C6_pointer_node_is_unwrapped_without_name
    (node : reflect.Value) (path : list Z) :
  reflect.kind node = reflect.Ptr ->
  buildNamePath [] node = Ret [""] /\
  (forall number rest,
      buildNamePath (number :: rest) node =
      ('(field, _) <- getProtobufField number (reflect.Elem node) ;;
       match rest with
       | [] => Fail (ErrFieldLabel [number] (reflect.Elem node))
       | index :: rest' =>
           match field with
           | reflect.SliceOf elems =>
               if index >=? Z.of_nat (List.length elems)
               then Fail (ErrSecondItem index (List.length elems))
               else
                 next_node <- getCollectionIndex field index ;;
                 prepend "" (buildNamePath rest' (cleanNext next_node))
           | _ => prepend "" (buildNamePath rest field)
           end
       end)) /\
  (forall name,
      structName (reflect.Elem node) = Ret name ->
      buildNamePath path node =
      match buildNamePath path (reflect.Elem node) with
      | Ret names => Ret ("" :: tl names)
      | Fail err => Fail err
      | Panic p => Panic p
      end /\
      forall names,
        buildNamePath path (reflect.Elem node) = Ret names ->
        hd "" names = name) /\
  (forall fields p,
      reflect.Elem node = reflect.StructOf fields ->
      structName (reflect.Elem node) = Panic p ->
      buildNamePath path (reflect.Elem node) = Panic p).
Proof.
  intros Hptr.
  assert (Hswitch : nameOfNode node = Ret ("", reflect.Elem node))
    by (destruct node; try discriminate Hptr; reflexivity).
  split; [|split; [|split]].
  - cbn [buildNamePath]. rewrite Hswitch. reflexivity.
  - intros number rest. cbn [buildNamePath]. rewrite Hswitch. cbn [bind].
    destruct (getProtobufField number (reflect.Elem node)) as [[f l]| |];
      cbn [bind]; try reflexivity.
    destruct rest as [|index rest']; [reflexivity|].
    destruct f; reflexivity.
  - intros name Hname.
    destruct (structName_struct _ _ Hname) as [fs Hfs].
    assert (Hn : nameOfNode (reflect.Elem node) = Ret (name, reflect.Elem node))
      by (rewrite Hfs in *; apply nameOfNode_struct, Hname).
    destruct path as [|p0 tail]; cbn [buildNamePath];
      rewrite Hswitch, Hn; cbn [bind].
    + split; [reflexivity|]. intros names H. inversion H. reflexivity.
    + destruct (getProtobufField p0 (reflect.Elem node)) as [[f l]| |];
        cbn [bind]; try (split; [reflexivity|discriminate]).
      destruct tail as [|p1 rest]; [split; [reflexivity|discriminate]|].
      destruct f;
        try (destruct (buildNamePath (p1 :: rest) _) as [rv| |]; cbn [bind];
             split; try reflexivity; try discriminate;
             intros names H; inversion H; reflexivity).
      destruct (p1 >=? _); [split; [reflexivity|discriminate]|].
      destruct (getCollectionIndex _ _) as [next| |]; cbn [bind];
        try (split; [reflexivity|discriminate]).
      destruct (buildNamePath rest _) as [rv| |]; cbn [bind];
        split; try reflexivity; try discriminate.
      intros names H; inversion H; reflexivity.
  - intros fields p Hfs Hname. rewrite Hfs in *.
    destruct path; cbn [buildNamePath nameOfNode]; rewrite Hname; reflexivity.
Qed.

Lemma C6_pointer_node_is_unwrapped_without_name_witness :
  buildNamePath [] (reflect.PtrTo Example.sourceCodeInfo) = Ret [""] /\
  buildNamePath [1; 0] (reflect.PtrTo Example.sourceCodeInfo)
  = Fail (ErrSecondItem 0 0) /\
  buildNamePath [] Example.sourceCodeInfo = Panic PanicZeroValueInterface /\
  buildNamePath [2; 0] (reflect.PtrTo Example.widget) = Ret [""; "id"] /\
  buildNamePath [2; 5] (reflect.PtrTo Example.widget)
  = buildNamePath [2; 5] Example.widget.
Proof.
  destruct (C6_pointer_node_is_unwrapped_without_name
              (reflect.PtrTo Example.sourceCodeInfo) [] eq_refl)
    as [Hempty [Hlookup [_ Hrecord]]].
  destruct (C6_pointer_node_is_unwrapped_without_name
              (reflect.PtrTo Example.widget) [2; 0] eq_refl)
    as [_ [_ [Hnamed _]]].
  destruct (C6_pointer_node_is_unwrapped_without_name
              (reflect.PtrTo Example.widget) [2; 5] eq_refl)
    as [_ [_ [Hfails _]]].
  split; [exact Hempty|].
  split; [rewrite (Hlookup 1 [0]); reflexivity|].
  split; [eapply Hrecord; reflexivity|].
  split.
  - rewrite (proj1 (Hnamed "Widget" eq_refl)). reflexivity.
  - rewrite (proj1 (Hfails "Widget" eq_refl)). reflexivity.
Defined.

(** C6, as stated, fails: resolved through a pointer, the message named
    "Widget" gives the name path of the empty string, and not of its Name. *)
Lemma C6_counterexample :
  structName Example.widget = Ret "Widget" /\
  buildNamePath [] (reflect.PtrTo Example.widget) = Ret [""] /\
  buildNamePath [] (reflect.PtrTo Example.widget) <> Ret ["Widget"].
Proof.
  split; [reflexivity|]. split; [reflexivity|]. discriminate.
Qed.

(** * The driver *)

Section DriverFacts.

Variable Deftree : Type.
Variable SetDescription : Deftree -> string -> Deftree.
Variable SetComment :
  Deftree -> list string -> string -> Deftree * option string.

Ltac run_location H Hlen :=
  unfold associateLocation; rewrite H, Hlen;
  unfold andThen, emit, callSetDescription, callSetComment,
    callBuildNamePath, ret; cbn.

Lemma associateLocation_no_comment file location w :
  hasComment location = false ->
  associateLocation SetDescription SetComment file location w = Completed tt w.
Proof.
  intros H. unfold associateLocation. rewrite H. reflexivity.
Qed.

Lemma associateLocation_package file location w :
  hasComment location = true ->
  List.length (Path location) = 1%nat ->
  associateLocation SetDescription SetComment file location w =
  Completed tt
    {| dt := SetDescription (dt w) (scrubComments (GetLeadingComments location));
       trace := trace w ++
         [LogDebug (fieldsOf location) "Comment describes package name";
          CallSetDescription (scrubComments (GetLeadingComments location))] |}.
Proof.
  intros H Hlen. run_location H Hlen.
  rewrite <- app_assoc. reflexivity.
Qed.

Lemma associateLocation_panic file location w p :
  hasComment location = true ->
  List.length (Path location) <> 1%nat ->
  buildNamePath (Path location) (ValueOf file) = Panic p ->
  associateLocation SetDescription SetComment file location w =
  Aborted p {| dt := dt w; trace := trace w ++ opening location |}.
Proof.
  intros H Hlen Hres. apply Nat.eqb_neq in Hlen. run_location H Hlen.
  rewrite Hres. rewrite <- app_assoc. reflexivity.
Qed.

Lemma associateLocation_error file location w err :
  hasComment location = true ->
  List.length (Path location) <> 1%nat ->
  buildNamePath (Path location) (ValueOf file) = Fail err ->
  associateLocation SetDescription SetComment file location w =
  Completed tt
    {| dt := dt w;
       trace := trace w ++ opening location ++
         [LogDebugf (cleanStr (GetLeadingComments location)) err] |}.
Proof.
  intros H Hlen Hres. apply Nat.eqb_neq in Hlen. run_location H Hlen.
  rewrite Hres. cbn. rewrite <- !app_assoc. reflexivity.
Qed.

Lemma associateLocation_placed file location w name_path dt' err :
  hasComment location = true ->
  List.length (Path location) <> 1%nat ->
  buildNamePath (Path location) (ValueOf file) = Ret name_path ->
  SetComment (dt w) name_path (scrubComments (GetLeadingComments location))
  = (dt', err) ->
  associateLocation SetDescription SetComment file location w =
  Completed tt
    {| dt := dt';
       trace := trace w ++ opening location ++
         [CallSetComment name_path
            (scrubComments (GetLeadingComments location))] ++
         afterSetComment err |}.
Proof.
  intros H Hlen Hres Hset. apply Nat.eqb_neq in Hlen. run_location H Hlen.
  rewrite Hres. cbn. rewrite Hset.
  destruct err as [e|]; cbn.
  - destruct (strings.Contains e "cannot find node"); cbn;
      rewrite <- !app_assoc; reflexivity.
  - rewrite <- !app_assoc. reflexivity.
Qed.

End DriverFacts.

Lemma opened_app evs evs' : opened (evs ++ evs') = opened evs ++ opened evs'.
Proof. apply flat_map_app. Qed.

Lemma written_app evs evs' : written (evs ++ evs') = written evs ++ written evs'.
Proof. apply flat_map_app. Qed.

Lemma written_afterSetComment err : written (afterSetComment err) = [].
Proof.
  destruct err as [e|]; cbn; [|reflexivity].
  destruct (strings.Contains e "cannot find node"); reflexivity.
Qed.

Lemma opened_afterSetComment err : opened (afterSetComment err) = [].
Proof.
  destruct err as [e|]; cbn; [|reflexivity].
  destruct (strings.Contains e "cannot find node"); reflexivity.
Qed.

Section DriverRuns.

Variable Deftree : Type.
Variable SetDescription : Deftree -> string -> Deftree.
Variable SetComment :
  Deftree -> list string -> string -> Deftree * option string.

(** The events of one location: whatever the outcome, the world the
    driver is left in extends the trace. *)
Lemma associateLocation_trace file location w :
  exists evs,
    trace (worldOf (associateLocation SetDescription SetComment file location w))
    = trace w ++ evs /\
    (forall text, In text (written evs) ->
                  text = scrubComments (GetLeadingComments location)) /\
    (hasComment location = true ->
     List.length (Path location) = 1%nat \/
     (exists name_path,
         buildNamePath (Path location) (ValueOf file) = Ret name_path) ->
     written evs = [scrubComments (GetLeadingComments location)]).
Proof.
  destruct (hasComment location) eqn:Hc.
  2:{ exists []. rewrite associateLocation_no_comment by exact Hc.
      cbn. rewrite app_nil_r. repeat split; [intros ? []|discriminate]. }
  destruct (Nat.eq_dec (List.length (Path location)) 1) as [Hlen|Hlen].
  { eexists. rewrite associateLocation_package by assumption. cbn [worldOf trace].
    split; [reflexivity|]. cbn. split; [|reflexivity].
    intros text [<-|[]]. reflexivity. }
  destruct (buildNamePath (Path location) (ValueOf file)) as [np|err|p] eqn:Hres.
  - destruct (SetComment (dt w) np (scrubComments (GetLeadingComments location)))
      as [dt' err] eqn:Hset.
    eexists. rewrite (associateLocation_placed _ _ _ _ _ _ _ _ _ Hc Hlen Hres Hset).
    cbn [worldOf trace]. split; [reflexivity|].
    rewrite !written_app, written_afterSetComment. cbn.
    split; [|reflexivity]. intros text [<-|[]]. reflexivity.
  - eexists. rewrite (associateLocation_error _ _ _ _ _ _ _ Hc Hlen Hres).
    cbn [worldOf trace]. split; [reflexivity|]. cbn.
    split; [intros ? []|]. intros _ [E|[np E]]; [contradiction|discriminate].
  - eexists. rewrite (associateLocation_panic _ _ _ _ _ _ _ Hc Hlen Hres).
    cbn [worldOf trace]. split; [reflexivity|]. cbn.
    split; [intros ? []|]. intros _ [E|[np E]]; [contradiction|discriminate].
Qed.

(** A location on which the resolver does not panic is worked off. *)
Lemma associateLocation_completes file location w :
  (hasComment location = true -> resolverPanics (file, location) = false) ->
  exists w',
    associateLocation SetDescription SetComment file location w = Completed tt w' /\
    opened (trace w') =
    opened (trace w) ++ (if hasComment location then [fieldsOf location] else []).
Proof.
  intros Hno.
  destruct (hasComment location) eqn:Hc.
  2:{ exists w. rewrite associateLocation_no_comment by exact Hc.
      rewrite app_nil_r. split; reflexivity. }
  specialize (Hno eq_refl). unfold resolverPanics in Hno. cbn [fst snd] in Hno.
  destruct (Nat.eq_dec (List.length (Path location)) 1) as [Hlen|Hlen].
  { eexists. rewrite associateLocation_package by assumption.
    split; [reflexivity|]. cbn [trace]. rewrite opened_app. reflexivity. }
  assert (Hlen' := Hlen). apply Nat.eqb_neq in Hlen'.
  rewrite Hlen' in Hno. cbn [negb andb] in Hno.
  destruct (buildNamePath (Path location) (ValueOf file)) as [np|err|p] eqn:Hres;
    [| |discriminate].
  - destruct (SetComment (dt w) np (scrubComments (GetLeadingComments location)))
      as [dt' err] eqn:Hset.
    eexists. rewrite (associateLocation_placed _ _ _ _ _ _ _ _ _ Hc Hlen Hres Hset).
    split; [reflexivity|]. cbn [trace].
    rewrite !opened_app, opened_afterSetComment. reflexivity.
  - eexists. rewrite (associateLocation_error _ _ _ _ _ _ _ Hc Hlen Hres).
    split; [reflexivity|]. cbn [trace]. rewrite !opened_app. reflexivity.
Qed.

Lemma forEach_locations_completes file : forall locations w,
  Forall (fun l => resolverPanics (file, l) = false) (filter hasComment locations) ->
  exists w',
    forEach (associateLocation SetDescription SetComment file) locations w
    = Completed tt w' /\
    opened (trace w') =
    opened (trace w) ++ map fieldsOf (filter hasComment locations).
Proof.
  induction locations as [|l ls IH]; intros w Hall.
  - exists w. cbn. rewrite app_nil_r. split; reflexivity.
  - cbn [filter] in Hall.
    destruct (associateLocation_completes file l w) as [w1 [Hrun Hopen]].
    { intros Hc. rewrite Hc in Hall. inversion Hall; assumption. }
    destruct (IH w1) as [w2 [Hrest Hopen2]].
    { destruct (hasComment l); [inversion Hall|]; assumption. }
    exists w2. cbn [forEach]. unfold andThen at 1. rewrite Hrun.
    split; [exact Hrest|].
    rewrite Hopen2, Hopen. cbn [filter].
    destruct (hasComment l); cbn [map]; rewrite <- app_assoc; reflexivity.
Qed.

Lemma forEach_files_completes req : forall files w,
  Forall (fun fl => resolverPanics fl = false)
    (flat_map
       (fun file =>
          if skipFile req file then []
          else map (pair file) (filter hasComment (GetLocation file)))
       files) ->
  exists w',
    forEach (associateFile SetDescription SetComment req) files w
    = Completed tt w' /\
    opened (trace w') =
    opened (trace w) ++
    map (fun fl => fieldsOf (snd fl))
      (flat_map
         (fun file =>
            if skipFile req file then []
            else map (pair file) (filter hasComment (GetLocation file)))
         files).
Proof.
  induction files as [|file files IH]; intros w Hall.
  - exists w. cbn. rewrite app_nil_r. split; reflexivity.
  - cbn [flat_map] in Hall |- *. apply Forall_app in Hall as [Hfile Hrest].
    assert (Hstep : exists w1,
      associateFile SetDescription SetComment req file w = Completed tt w1 /\
      opened (trace w1) =
      opened (trace w) ++
      map (fun fl => fieldsOf (snd fl))
        (if skipFile req file then []
         else map (pair file) (filter hasComment (GetLocation file)))).
    { unfold associateFile. destruct (skipFile req file).
      - exists w. cbn. rewrite app_nil_r. split; reflexivity.
      - destruct (forEach_locations_completes file (GetLocation file) w)
          as [w1 [Hrun Hopen]].
        { rewrite Forall_map in Hfile. exact Hfile. }
        exists w1. split; [exact Hrun|].
        rewrite Hopen, map_map. reflexivity. }
    destruct Hstep as [w1 [Hrun Hopen]].
    destruct (IH w1 Hrest) as [w2 [Hrun2 Hopen2]].
    exists w2. cbn [forEach]. unfold andThen at 1. rewrite Hrun.
    split; [exact Hrun2|].
    rewrite Hopen2, Hopen, map_app, <- app_assoc. reflexivity.
Qed.

(** * The claims about the driver *)

(** C5. For every location the driver looks at whose path has length
    exactly 1, the driver sets the scrubbed leading comment as the tree's
    description with [SetDescription] and does not call the resolver,
    whatever the file is. *)
Theorem C5_package_comment_sets_description
    (file : FileDescriptorProto) (location : Location) (w : World Deftree) :
  hasComment location = true ->
  List.length (Path location) = 1%nat ->
  let text := scrubComments (GetLeadingComments location) in
  let evs := [LogDebug (fieldsOf location) "Comment describes package name";
              CallSetDescription text] in
  associateLocation SetDescription SetComment file location w
  = Completed tt {| dt := SetDescription (dt w) text; trace := trace w ++ evs |}
  /\ resolved evs = [].
Proof.
  intros Hc Hlen text evs. split; [|reflexivity].
  apply associateLocation_package; assumption.
Qed.

(** C7. The pass is not aborted by a location on which the resolver
    returns an error, nor by a failure of [SetComment]: when the resolver
    panics on no location the driver looks at, the pass completes and has
    begun the work on every such location of every file to generate, in
    order; a location on which the resolver returns an error leaves the
    tree as it was and is logged; a failure of [SetComment] is logged
    unless its message contains "cannot find node". *)
Theorem C7_errors_do_not_abort_the_pass
    (req : CodeGeneratorRequest) (w : World Deftree) :
  (Forall (fun fl => resolverPanics fl = false) (workList req) ->
   exists w',
     AssociateComments SetDescription SetComment req w = Completed tt w' /\
     opened (trace w') =
     opened (trace w) ++ map (fun fl => fieldsOf (snd fl)) (workList req)) /\
  (forall file location err,
      hasComment location = true ->
      List.length (Path location) <> 1%nat ->
      buildNamePath (Path location) (ValueOf file) = Fail err ->
      associateLocation SetDescription SetComment file location w =
      Completed tt
        {| dt := dt w;
           trace := trace w ++ opening location ++
             [LogDebugf (cleanStr (GetLeadingComments location)) err] |}) /\
  (forall file location name_path dt' e,
      hasComment location = true ->
      List.length (Path location) <> 1%nat ->
      buildNamePath (Path location) (ValueOf file) = Ret name_path ->
      SetComment (dt w) name_path (scrubComments (GetLeadingComments location))
      = (dt', Some e) ->
      associateLocation SetDescription SetComment file location w =
      Completed tt
        {| dt := dt';
           trace := trace w ++ opening location ++
             [CallSetComment name_path
                (scrubComments (GetLeadingComments location))] ++
             (if strings.Contains e "cannot find node" then []
              else [LogErrorf e]) |}).
Proof.
  split; [|split].
  - intros Hall. apply forEach_files_completes. exact Hall.
  - intros file location err. apply associateLocation_error.
  - intros file location name_path dt' e Hc Hlen Hres Hset.
    apply (associateLocation_placed _ _ _ _ _ _ _ _ _ Hc Hlen Hres Hset).
Qed.

(** C10. Only the leading comment's text is written to the tree: every
    text the driver hands to [SetDescription] or [SetComment] for a
    location is the scrubbed leading comment; a location with a leading
    comment of at most one character and more than one detached comment is
    looked at, and what is written for it is its scrubbed leading comment;
    and the detached comments of a location the driver looks at can be
    replaced by any others that keep it looked at without changing the
    tree or the texts written. *)
Theorem C10_only_the_leading_comment_is_written
    (file : FileDescriptorProto) (location : Location) (w : World Deftree) :
  let lead := GetLeadingComments location in
  let after := worldOf (associateLocation SetDescription SetComment file location w) in
  (exists evs,
      trace after = trace w ++ evs /\
      (forall text, In text (written evs) -> text = scrubComments lead) /\
      ((String.length lead <= 1)%nat ->
       (1 < List.length (LeadingDetachedComments location))%nat ->
       List.length (Path location) = 1%nat \/
       (exists name_path,
           buildNamePath (Path location) (ValueOf file) = Ret name_path) ->
       written evs = [scrubComments lead])) /\
  (forall detached,
      let location' :=
        {| Path := Path location; GetLeadingComments := lead;
           LeadingDetachedComments := detached |} in
      let after' :=
        worldOf (associateLocation SetDescription SetComment file location' w) in
      hasComment location = true ->
      hasComment location' = true ->
      dt after' = dt after /\ written (trace after') = written (trace after)).
Proof.
  intros lead after. split.
  - destruct (associateLocation_trace file location w) as [evs [Htr [Hin Hw]]].
    exists evs. split; [exact Htr|]. split; [exact Hin|].
    intros Hshort Hdet Hcase. apply Hw; [|exact Hcase].
    unfold hasComment. apply orb_true_iff. right. apply Nat.ltb_lt. exact Hdet.
  - intros detached location' after' Hc Hc'. subst after after'.
    destruct (Nat.eq_dec (List.length (Path location)) 1) as [Hlen|Hlen].
    { rewrite !associateLocation_package by assumption. cbn [worldOf dt trace].
      split; [reflexivity|]. rewrite !written_app. reflexivity. }
    destruct (buildNamePath (Path location) (ValueOf file)) as [np|err|p] eqn:Hres.
    + destruct (SetComment (dt w) np (scrubComments lead)) as [dt' err] eqn:Hset.
      rewrite (associateLocation_placed _ _ _ _ _ _ _ _ _ Hc Hlen Hres Hset).
      rewrite (associateLocation_placed _ _ _ _ location' _ _ _ _ Hc' Hlen Hres Hset).
      cbn [worldOf dt trace]. split; [reflexivity|].
      rewrite !written_app. reflexivity.
    + rewrite (associateLocation_error _ _ _ _ _ _ _ Hc Hlen Hres).
      rewrite (associateLocation_error _ _ _ _ location' _ _ Hc' Hlen Hres).
      cbn [worldOf dt trace]. split; [reflexivity|].
      rewrite !written_app. reflexivity.
    + rewrite (associateLocation_panic _ _ _ _ _ _ _ Hc Hlen Hres).
      rewrite (associateLocation_panic _ _ _ _ location' _ _ Hc' Hlen Hres).
      cbn [worldOf dt trace]. split; [reflexivity|].
      rewrite !written_app. reflexivity.
Qed.

End DriverRuns.

(** * The scrubber *)

Lemma b_str l : b (str l) = l.
Proof. apply list_ascii_of_string_of_list_ascii. Qed.

Lemma str_b s : str (b s) = s.
Proof. apply string_of_list_ascii_of_string. Qed.

(** ** The replacement loop *)

Lemma scan_drop re repl : forall k s,
  (k <= List.length s)%nat ->
  regexp.scan re repl k false true s
  = regexp.scan re repl O false true (skipn k s).
Proof.
  induction k as [|k IH]; intros s Hk; [reflexivity|].
  destruct s as [|c s]; cbn in Hk; [lia|].
  cbn [regexp.scan skipn]. apply IH. lia.
Qed.

(** ** [line_trail_ws]: white space up to a newline *)

Lemma isSpace_LF c : Ascii.eqb c LF = true -> regexp.isSpace c = true.
Proof.
  intros H. apply Ascii.eqb_eq in H. subst. reflexivity.
Qed.

Lemma toLF_cons c s :
  toLF (c :: s) =
  if regexp.isSpace c
  then match toLF s with
       | Some n => Some (S n)
       | None => if Ascii.eqb c LF then Some 1%nat else None
       end
  else None.
Proof.
  cbn [regexp.star regexp.accepts].
  destruct (regexp.isSpace c) eqn:Hs.
  - destruct (toLF s); [reflexivity|].
    cbn. destruct (Ascii.eqb c LF); reflexivity.
  - cbn. destruct (Ascii.eqb c LF) eqn:E; [|reflexivity].
    apply isSpace_LF in E. congruence.
Qed.

Lemma toLF_none s : toLF s = None <-> lfAhead s = false.
Proof.
  induction s as [|c s IH]; [cbn; tauto|].
  rewrite toLF_cons. cbn [lfAhead].
  destruct (regexp.isSpace c) eqn:Hs.
  - destruct (toLF s) as [n|].
    + destruct IH as [_ IH]. split; [discriminate|]. intros H.
      destruct (lfAhead s); [discriminate H|].
      discriminate (IH eq_refl).
    + destruct IH as [IH _]. rewrite (IH eq_refl).
      cbn. destruct (Ascii.eqb c LF); split; congruence.
  - cbn. destruct (Ascii.eqb c LF) eqn:E.
    + apply isSpace_LF in E. congruence.
    + tauto.
Qed.

Lemma toLF_some : forall s n,
  toLF s = Some n ->
  (1 <= n <= List.length s)%nat /\
  lfAhead (skipn n s) = false /\
  allSpace (firstn n s) = true.
Proof.
  induction s as [|c s IH]; intros n H; [discriminate|].
  rewrite toLF_cons in H.
  destruct (regexp.isSpace c) eqn:Hs; [|discriminate].
  destruct (toLF s) as [m|] eqn:Hm.
  - inversion H; subst. destruct (IH m eq_refl) as [Hle [Hla Hall]].
    cbn [skipn firstn List.length allSpace forallb].
    split; [lia|]. split; [exact Hla|]. rewrite Hs. exact Hall.
  - destruct (Ascii.eqb c LF); [|discriminate]. inversion H; subst.
    cbn [skipn firstn List.length allSpace forallb].
    split; [lia|]. split; [apply toLF_none, Hm|]. rewrite Hs. reflexivity.
Qed.

Lemma collapse_flags s a ab :
  regexp.scan line_trail_ws [LF] O a ab s = collapse s.
Proof.
  destruct s as [|c s]; [reflexivity|].
  cbn [regexp.scan line_trail_ws regexp.matchHere regexp.accepts].
  destruct (regexp.isSpace c); [|reflexivity].
  destruct (regexp.star _ _ _ _); reflexivity.
Qed.

Lemma collapse_nil : collapse [] = [].
Proof. reflexivity. Qed.

Lemma collapse_cons c s :
  collapse (c :: s) =
  if regexp.isSpace c
  then match toLF s with
       | Some n => LF :: collapse (skipn n s)
       | None => c :: collapse s
       end
  else c :: collapse s.
Proof.
  cbn [regexp.scan].
  change (regexp.matchHere line_trail_ws false (c :: s))
    with (if regexp.isSpace c then option_map S (toLF s) else None).
  destruct (regexp.isSpace c); [|reflexivity].
  destruct (toLF s) as [n|] eqn:Hn; cbn [option_map]; [|reflexivity].
  destruct (toLF_some _ _ Hn) as [[_ Hle] _].
  rewrite scan_drop by exact Hle. rewrite collapse_flags. reflexivity.
Qed.

Lemma collapse_startsLF s : lfAhead s = false -> startsLF (collapse s) = false.
Proof.
  destruct s as [|c s]; [reflexivity|].
  cbn [lfAhead]. intros H. apply orb_false_iff in H as [H1 H2].
  rewrite collapse_cons.
  destruct (regexp.isSpace c); cbn [andb] in H1; [|exact H2].
  apply toLF_none in H1. rewrite H1. exact H2.
Qed.

Lemma collapse_empty s : collapse s = [] -> s = [].
Proof.
  destruct s as [|c s]; [reflexivity|].
  rewrite collapse_cons.
  destruct (regexp.isSpace c); [destruct (toLF s)|]; discriminate.
Qed.

Lemma collapse_startsSpace s : startsSpace s = false -> startsSpace (collapse s) = false.
Proof.
  destruct s as [|c s]; [reflexivity|].
  cbn [startsSpace]. intros H. rewrite collapse_cons, H. exact H.
Qed.

(** After the replacement no white space is left before a newline. *)
Lemma collapse_noSpaceLF_bounded n : forall s,
  (List.length s <= n)%nat -> noSpaceLF (collapse s) = true.
Proof.
  induction n as [|n IH]; intros s Hn.
  - destruct s; [reflexivity|cbn in Hn; lia].
  - destruct s as [|c s]; [reflexivity|]. cbn in Hn.
    rewrite collapse_cons.
    destruct (regexp.isSpace c) eqn:Hs.
    + destruct (toLF s) as [m|] eqn:Hm.
      * destruct (toLF_some _ _ Hm) as [Hle [Hla _]].
        cbn [noSpaceLF]. rewrite (collapse_startsLF _ Hla), andb_false_r.
        apply IH. rewrite length_skipn. lia.
      * cbn [noSpaceLF]. apply toLF_none in Hm.
        rewrite (collapse_startsLF _ Hm), andb_false_r. apply IH. lia.
    + cbn [noSpaceLF]. rewrite Hs. apply IH. lia.
Qed.

Lemma collapse_noSpaceLF s : noSpaceLF (collapse s) = true.
Proof. apply (collapse_noSpaceLF_bounded (List.length s)). lia. Qed.

Lemma endsSpace_cons c s : s <> [] -> endsSpace (c :: s) = endsSpace s.
Proof. destruct s; [congruence|reflexivity]. Qed.

Lemma allSpace_endsSpace s : allSpace s = true -> s <> [] -> endsSpace s = true.
Proof.
  induction s as [|c s IH]; [congruence|].
  cbn [allSpace forallb]. intros H _. apply andb_prop in H as [Hc Hs].
  destruct s as [|d s]; [exact Hc|].
  rewrite endsSpace_cons by discriminate. apply IH; [exact Hs|discriminate].
Qed.

Lemma endsSpace_skipn : forall n s,
  skipn n s <> [] -> endsSpace (skipn n s) = endsSpace s.
Proof.
  induction n as [|n IH]; intros s H; [reflexivity|].
  destruct s as [|c s]; [reflexivity|]. cbn [skipn] in *.
  rewrite IH by exact H. symmetry. apply endsSpace_cons.
  intros ->. rewrite skipn_nil in H. congruence.
Qed.

(** The replacement keeps a last character that is not white space. *)
Lemma collapse_endsSpace_bounded n : forall s,
  (List.length s <= n)%nat ->
  endsSpace s = false -> endsSpace (collapse s) = false.
Proof.
  induction n as [|n IH]; intros s Hn Hend.
  - destruct s; [reflexivity|cbn in Hn; lia].
  - destruct s as [|c s]; [reflexivity|]. cbn in Hn.
    rewrite collapse_cons.
    assert (Hkeep : endsSpace (c :: collapse s) = false).
    { destruct s as [|d s]; [exact Hend|].
      rewrite endsSpace_cons in Hend by discriminate.
      rewrite endsSpace_cons.
      - apply IH; [lia|exact Hend].
      - intros E. apply collapse_empty in E. discriminate. }
    destruct (regexp.isSpace c) eqn:Hs; [|exact Hkeep].
    destruct (toLF s) as [m|] eqn:Hm; [|exact Hkeep].
    destruct (toLF_some _ _ Hm) as [[H1 Hle] [_ Hall]].
    assert (Hrest : skipn m s <> []).
    { intros E.
      assert (Hfull : firstn m s = s).
      { rewrite <- (firstn_skipn m s) at 2. rewrite E, app_nil_r. reflexivity. }
      rewrite Hfull in Hall.
      assert (Hne : s <> []) by (intros ->; cbn in Hle; lia).
      rewrite endsSpace_cons in Hend by exact Hne.
      rewrite (allSpace_endsSpace _ Hall Hne) in Hend. discriminate. }
    assert (Hne : s <> []) by (intros ->; rewrite skipn_nil in Hrest; congruence).
    rewrite endsSpace_cons in Hend by exact Hne.
    rewrite endsSpace_cons.
    + apply IH; [rewrite length_skipn; lia|].
      rewrite endsSpace_skipn by exact Hrest. exact Hend.
    + intros E. apply collapse_empty in E. congruence.
Qed.

Lemma collapse_endsSpace s :
  endsSpace s = false -> endsSpace (collapse s) = false.
Proof. apply (collapse_endsSpace_bounded (List.length s)). lia. Qed.

Lemma noSpaceLF_lfAhead c s :
  noSpaceLF (c :: s) = true -> regexp.isSpace c = true -> lfAhead s = false.
Proof.
  revert c. induction s as [|d s IH]; intros c H Hc; [reflexivity|].
  cbn [noSpaceLF] in H. apply andb_prop in H as [H1 H2].
  rewrite Hc in H1. cbn [andb startsLF] in H1. apply negb_true_iff in H1.
  cbn [lfAhead]. rewrite H1, orb_false_r.
  destruct (regexp.isSpace d) eqn:Hd; [|reflexivity].
  cbn [andb]. apply (IH d); [|exact Hd].
  cbn [noSpaceLF]. rewrite Hd. exact H2.
Qed.

(** A text without white space before a newline is left as it is. *)
Lemma collapse_fixed s : noSpaceLF s = true -> collapse s = s.
Proof.
  induction s as [|c s IH]; intros H; [reflexivity|].
  rewrite collapse_cons.
  assert (Hs : noSpaceLF s = true).
  { cbn [noSpaceLF] in H. apply andb_prop in H as [_ H]. exact H. }
  destruct (regexp.isSpace c) eqn:Hc.
  - apply (noSpaceLF_lfAhead c s H) in Hc. apply toLF_none in Hc.
    rewrite Hc, IH by exact Hs. reflexivity.
  - rewrite IH by exact Hs. reflexivity.
Qed.

(** ** [trailing_whitespace]: white space up to the end of the text *)

Lemma matchHere_trailing_whitespace : forall s a,
  regexp.matchHere trailing_whitespace a s
  = if allSpace s then Some (List.length s) else None.
Proof.
  unfold trailing_whitespace. cbn [regexp.matchHere].
  induction s as [|c s IH]; intros a; [reflexivity|].
  cbn [regexp.star regexp.accepts allSpace forallb List.length].
  destruct (regexp.isSpace c); [|reflexivity].
  rewrite IH. cbn [andb]. fold (allSpace s).
  destruct (allSpace s); reflexivity.
Qed.

Lemma rtrim_flags s a ab :
  regexp.scan trailing_whitespace [] O a ab s = rtrim s.
Proof.
  destruct s as [|c s]; cbn [regexp.scan];
    rewrite !matchHere_trailing_whitespace.
  - cbn. destruct ab; reflexivity.
  - destruct (allSpace (c :: s)); reflexivity.
Qed.

Lemma rtrim_cons c s :
  rtrim (c :: s) = if allSpace (c :: s) then [] else c :: rtrim s.
Proof.
  cbn [regexp.scan]. rewrite matchHere_trailing_whitespace.
  destruct (allSpace (c :: s)); [|reflexivity].
  cbn [List.length app]. rewrite scan_drop by lia.
  rewrite skipn_all. reflexivity.
Qed.

Lemma rtrim_empty s : rtrim s = [] -> allSpace s = true.
Proof.
  destruct s as [|c s]; [reflexivity|].
  rewrite rtrim_cons. destruct (allSpace (c :: s)); [reflexivity|discriminate].
Qed.

Lemma rtrim_endsSpace s : endsSpace (rtrim s) = false.
Proof.
  induction s as [|c s IH]; [reflexivity|].
  rewrite rtrim_cons. destruct (allSpace (c :: s)) eqn:Hall; [reflexivity|].
  destruct (rtrim s) as [|d r] eqn:Hr.
  - apply rtrim_empty in Hr. cbn [allSpace forallb] in Hall.
    fold (allSpace s) in Hall. rewrite Hr, andb_true_r in Hall. exact Hall.
  - rewrite endsSpace_cons by discriminate. exact IH.
Qed.

Lemma rtrim_startsSpace s :
  startsSpace s = false -> startsSpace (rtrim s) = false.
Proof.
  destruct s as [|c s]; [reflexivity|].
  cbn [startsSpace]. intros H. rewrite rtrim_cons.
  cbn [allSpace forallb]. rewrite H. exact H.
Qed.

(** A text that does not end with white space is left as it is. *)
Lemma rtrim_fixed s : endsSpace s = false -> rtrim s = s.
Proof.
  induction s as [|c s IH]; intros H; [reflexivity|].
  rewrite rtrim_cons.
  destruct (allSpace (c :: s)) eqn:Hall.
  - rewrite (allSpace_endsSpace _ Hall) in H by discriminate. discriminate.
  - f_equal. apply IH. destruct s; [reflexivity|exact H].
Qed.

(** ** [beginning_slash]: slashes, then white space, at the beginning *)

Lemma scan_beginning_slash_rest : forall s ab,
  regexp.scan beginning_slash [] O false ab s = s.
Proof.
  induction s as [|c s IH]; intros ab; [reflexivity|].
  cbn [regexp.scan beginning_slash regexp.matchHere]. rewrite IH. reflexivity.
Qed.

Lemma star_always a k g :
  (forall f s, exists n,
      k f s = Some n /\ (n <= List.length s)%nat /\ skipn n s = g s) ->
  forall s f, exists n,
    regexp.star a k f s = Some n /\ (n <= List.length s)%nat /\
    skipn n s = g (dropWhile (regexp.accepts a) s).
Proof.
  intros Hk. induction s as [|c s IH]; intros f.
  - cbn [regexp.star dropWhile]. apply Hk.
  - cbn [regexp.star dropWhile]. destruct (regexp.accepts a c).
    + destruct (IH false) as [n [Hn [Hle Hskip]]]. rewrite Hn.
      exists (S n). cbn [List.length skipn]. split; [reflexivity|].
      split; [lia|exact Hskip].
    + apply Hk.
Qed.

Lemma matchHere_beginning_slash s :
  exists n,
    regexp.matchHere beginning_slash true s = Some n /\
    (n <= List.length s)%nat /\
    skipn n s = dropWhile regexp.isSpace (dropWhile isSlash s).
Proof.
  unfold beginning_slash. cbn [regexp.matchHere].
  apply (star_always (regexp.Lit SLASH) _ (dropWhile regexp.isSpace)).
  intros f s'.
  apply (star_always regexp.Space _ (fun x => x)).
  intros f' s''. exists O. cbn. split; [reflexivity|]. split; [lia|reflexivity].
Qed.

Lemma ltrim_dropWhile s :
  ltrim s = dropWhile regexp.isSpace (dropWhile isSlash s).
Proof.
  destruct (matchHere_beginning_slash s) as [n [Hn [Hle Hskip]]].
  rewrite <- Hskip.
  destruct s as [|c s].
  - cbn [regexp.scan]. rewrite Hn. rewrite skipn_nil. reflexivity.
  - cbn [regexp.scan]. rewrite Hn. destruct n as [|n].
    + cbn [app skipn]. rewrite scan_beginning_slash_rest. reflexivity.
    + cbn [app skipn]. cbn [List.length] in Hle.
      rewrite scan_drop by lia. apply scan_beginning_slash_rest.
Qed.

Lemma dropWhile_startsSpace s : startsSpace (dropWhile regexp.isSpace s) = false.
Proof.
  induction s as [|c s IH]; [reflexivity|].
  cbn [dropWhile]. destruct (regexp.isSpace c) eqn:E; [exact IH|exact E].
Qed.

Lemma ltrim_startsSpace s : startsSpace (ltrim s) = false.
Proof. rewrite ltrim_dropWhile. apply dropWhile_startsSpace. Qed.

(** A text that begins with neither a slash nor white space is left as it
    is. *)
Lemma ltrim_fixed s :
  strings.hasPrefix s [SLASH] = false -> startsSpace s = false -> ltrim s = s.
Proof.
  rewrite ltrim_dropWhile. destruct s as [|c s]; [reflexivity|].
  cbn [strings.hasPrefix startsSpace dropWhile]. unfold isSlash.
  replace (strings.hasPrefix s []) with true by (destruct s; reflexivity).
  rewrite andb_true_r. intros -> Hs. cbn [dropWhile]. rewrite Hs. reflexivity.
Qed.

(** ** [strings.Replace] *)

Lemma replace_fixed old new : forall s,
  strings.contains s old = false -> strings.replace old new O s = s.
Proof.
  induction s as [|c s IH]; intros H; [reflexivity|].
  cbn [strings.contains] in H. apply orb_false_iff in H as [H1 H2].
  cbn [strings.replace]. rewrite H1, IH by exact H2. reflexivity.
Qed.

Lemma hasPrefix_app : forall p s q,
  strings.hasPrefix s (p ++ q) = true -> strings.hasPrefix s p = true.
Proof.
  induction p as [|x p IH]; intros s q H; [destruct s; reflexivity|].
  destruct s as [|c s]; [discriminate|].
  cbn [app strings.hasPrefix] in *. apply andb_prop in H as [H1 H2].
  rewrite H1. cbn [andb]. apply (IH _ _ H2).
Qed.

Lemma contains_app p q : forall s,
  strings.contains s p = false -> strings.contains s (p ++ q) = false.
Proof.
  induction s as [|c s IH]; intros H.
  - cbn [strings.contains] in *. rewrite orb_false_r in *.
    destruct (strings.hasPrefix [] (p ++ q)) eqn:E; [|reflexivity].
    apply hasPrefix_app in E. congruence.
  - cbn [strings.contains] in *. apply orb_false_iff in H as [H1 H2].
    rewrite (IH H2), orb_false_r.
    destruct (strings.hasPrefix (c :: s) (p ++ q)) eqn:E; [|reflexivity].
    apply hasPrefix_app in E. congruence.
Qed.

(** ** [scrubComments] on the bytes of the comment *)

Lemma scrubComments_bytes s :
  b (scrubComments s) =
  collapse (rtrim (ltrim
    (strings.replace [LF; SLASH] [LF] O
       (strings.replace [LF; SLASH; " "%char] [LF] O (b s))))).
Proof.
  unfold scrubComments, strings.Replace, regexp.ReplaceAllString.
  rewrite !b_str.
  change (b "") with (@nil ascii).
  change (b (String LF "")) with [LF].
  change (b (String LF "/")) with [LF; SLASH].
  change (b (String LF "/ ")) with [LF; SLASH; " "%char].
  rewrite (rtrim_flags _ true false), (collapse_flags _ true false).
  reflexivity.
Qed.

(** What every scrubbed comment looks like: no white space at either end,
    and none before a newline. *)
Lemma scrubComments_shape s :
  startsSpace (b (scrubComments s)) = false /\
  endsSpace (b (scrubComments s)) = false /\
  noSpaceLF (b (scrubComments s)) = true.
Proof.
  rewrite scrubComments_bytes.
  split; [|split].
  - apply collapse_startsSpace, rtrim_startsSpace, ltrim_startsSpace.
  - apply collapse_endsSpace, rtrim_endsSpace.
  - apply collapse_noSpaceLF.
Qed.

(** A comment of that shape without a slash at its beginning or after a
    newline is left as it is. *)
Lemma scrubComments_fixed t :
  startsSpace (b t) = false ->
  endsSpace (b t) = false ->
  noSpaceLF (b t) = true ->
  strings.HasPrefix t "/" = false ->
  strings.Contains t (String LF "/") = false ->
  scrubComments t = t.
Proof.
  intros Hstart Hend Hmid Hslash Hnl.
  rewrite <- (str_b (scrubComments t)), scrubComments_bytes.
  unfold strings.HasPrefix in Hslash. unfold strings.Contains in Hnl.
  change (b "/") with [SLASH] in Hslash.
  change (b (String LF "/")) with [LF; SLASH] in Hnl.
  rewrite (replace_fixed [LF; SLASH; " "%char])
    by (apply (contains_app [LF; SLASH] [" "%char]), Hnl).
  rewrite (replace_fixed [LF; SLASH]) by exact Hnl.
  rewrite ltrim_fixed by assumption.
  rewrite rtrim_fixed by assumption.
  rewrite collapse_fixed by assumption.
  apply str_b.
Qed.

(** ** No step of [scrubComments] lengthens the comment *)

Lemma hasPrefix_length : forall p s,
  strings.hasPrefix s p = true -> (List.length p <= List.length s)%nat.
Proof.
  induction p as [|x p IH]; intros s H; [cbn; lia|].
  destruct s as [|c s]; [discriminate|].
  cbn [strings.hasPrefix] in H. apply andb_prop in H as [_ H].
  apply IH in H. cbn [List.length]. lia.
Qed.

Lemma replace_length old new :
  (List.length new <= List.length old)%nat ->
  forall s k,
    (List.length (strings.replace old new k s) + Nat.min k (List.length s)
     <= List.length s)%nat.
Proof.
  intros Hnew. induction s as [|c s IH]; intros k; [cbn; lia|].
  cbn [strings.replace]. destruct k as [|k].
  - destruct (strings.hasPrefix (c :: s) old) eqn:Hp.
    + apply hasPrefix_length in Hp. cbn [List.length] in *.
      rewrite length_app.
      specialize (IH (pred (List.length old))). lia.
    + specialize (IH O). cbn [List.length]. lia.
  - specialize (IH k). cbn [List.length]. lia.
Qed.

Lemma replace_shorter old new :
  (List.length new < List.length old)%nat ->
  forall s,
    strings.contains s old = true ->
    (List.length (strings.replace old new O s) < List.length s)%nat.
Proof.
  intros Hnew. induction s as [|c s IH]; intros H.
  - cbn [strings.contains] in H. rewrite orb_false_r in H.
    apply hasPrefix_length in H. cbn in H. lia.
  - cbn [strings.contains] in H. cbn [strings.replace].
    destruct (strings.hasPrefix (c :: s) old) eqn:Hp.
    + apply hasPrefix_length in Hp. cbn [List.length] in *.
      rewrite length_app.
      assert (Hr := replace_length old new ltac:(lia) s (pred (List.length old))).
      lia.
    + cbn [orb] in H. apply IH in H. cbn [List.length]. lia.
Qed.

Lemma dropWhile_length p s : (List.length (dropWhile p s) <= List.length s)%nat.
Proof.
  induction s as [|c s IH]; [cbn; lia|].
  cbn [dropWhile]. destruct (p c); cbn [List.length]; lia.
Qed.

Lemma ltrim_length s : (List.length (ltrim s) <= List.length s)%nat.
Proof.
  rewrite ltrim_dropWhile.
  etransitivity; [apply dropWhile_length|apply dropWhile_length].
Qed.

Lemma ltrim_shorter s :
  strings.hasPrefix s [SLASH] = true ->
  (List.length (ltrim s) < List.length s)%nat.
Proof.
  rewrite ltrim_dropWhile. destruct s as [|c s]; [discriminate|].
  cbn [strings.hasPrefix dropWhile]. unfold isSlash. intros H.
  apply andb_prop in H as [-> _].
  assert (H1 := dropWhile_length regexp.isSpace
                  (dropWhile (fun c => Ascii.eqb c SLASH) s)).
  assert (H2 := dropWhile_length (fun c => Ascii.eqb c SLASH) s).
  cbn [List.length]. lia.
Qed.

Lemma rtrim_length s : (List.length (rtrim s) <= List.length s)%nat.
Proof.
  induction s as [|c s IH]; [cbn; lia|].
  rewrite rtrim_cons. destruct (allSpace (c :: s)); cbn [List.length]; lia.
Qed.

Lemma collapse_length_bounded n : forall s,
  (List.length s <= n)%nat ->
  (List.length (collapse s) <= List.length s)%nat.
Proof.
  induction n as [|n IH]; intros s Hn.
  - destruct s; [cbn; lia|cbn in Hn; lia].
  - destruct s as [|c s]; [cbn; lia|]. cbn [List.length] in Hn.
    rewrite collapse_cons.
    assert (Hkeep : (List.length (c :: collapse s) <= List.length (c :: s))%nat).
    { specialize (IH s ltac:(lia)). cbn [List.length]. lia. }
    destruct (regexp.isSpace c); [|exact Hkeep].
    destruct (toLF s) as [m|] eqn:Hm; [|exact Hkeep].
    destruct (toLF_some _ _ Hm) as [[H1 Hle] _].
    specialize (IH (skipn m s)). rewrite length_skipn in IH.
    cbn [List.length]. lia.
Qed.

Lemma collapse_length s : (List.length (collapse s) <= List.length s)%nat.
Proof. apply (collapse_length_bounded (List.length s)). lia. Qed.

(** A comment [scrubComments] leaves as it is has no slash at its
    beginning and none after a newline. *)
Lemma scrubComments_fixed_inv t :
  scrubComments t = t ->
  strings.HasPrefix t "/" = false /\
  strings.Contains t (String LF "/") = false.
Proof.
  intros Hfix.
  assert (Hlen : List.length (b (scrubComments t)) = List.length (b t))
    by (rewrite Hfix; reflexivity).
  rewrite scrubComments_bytes in Hlen.
  unfold strings.HasPrefix, strings.Contains.
  change (b "/") with [SLASH].
  change (b (String LF "/")) with [LF; SLASH].
  set (r1 := strings.replace [LF; SLASH; " "%char] [LF] O (b t)) in *.
  set (r2 := strings.replace [LF; SLASH] [LF] O r1) in *.
  assert (H1 := replace_length [LF; SLASH; " "%char] [LF] ltac:(cbn; lia) (b t) O).
  assert (H2 := replace_length [LF; SLASH] [LF] ltac:(cbn; lia) r1 O).
  fold r1 in H1. fold r2 in H2.
  assert (H3 := ltrim_length r2).
  assert (H4 := rtrim_length (ltrim r2)).
  assert (H5 := collapse_length (rtrim (ltrim r2))).
  assert (Hnl : strings.contains (b t) [LF; SLASH] = false).
  { destruct (strings.contains (b t) [LF; SLASH]) eqn:E; [|reflexivity].
    destruct (strings.contains (b t) [LF; SLASH; " "%char]) eqn:E3.
    - apply (replace_shorter _ [LF]) in E3; [|cbn; lia]. fold r1 in E3. lia.
    - assert (Er : r1 = b t) by (apply replace_fixed, E3).
      apply (replace_shorter _ [LF]) in E; [|cbn; lia].
      rewrite <- Er in E. fold r2 in E. lia. }
  split; [|exact Hnl].
  destruct (strings.hasPrefix (b t) [SLASH]) eqn:E; [|reflexivity].
  assert (Er1 : r1 = b t).
  { apply replace_fixed. apply (contains_app [LF; SLASH] [" "%char]), Hnl. }
  assert (Er2 : r2 = b t).
  { unfold r2. rewrite Er1. apply replace_fixed, Hnl. }
  rewrite <- Er2 in E. apply ltrim_shorter in E. lia.
Qed.

(** * The claims about the scrubber *)

(** C2. The scrubber is idempotent exactly on the comments whose scrubbed
    form has no slash left at its beginning and none after a newline:
    [scrub (scrub s) = scrub s] if and only if [scrub s] neither begins
    with a slash nor contains a newline followed by a slash. *)
Theorem C2_scrub_idempotent_iff_no_slash_left (s : string) :
  scrubComments (scrubComments s) = scrubComments s <->
  strings.HasPrefix (scrubComments s) "/" = false /\
  strings.Contains (scrubComments s) (String LF "/") = false.
Proof.
  split.
  - apply scrubComments_fixed_inv.
  - intros [Hslash Hnl].
    destruct (scrubComments_shape s) as [Hstart [Hend Hmid]].
    apply scrubComments_fixed; assumption.
Qed.

Lemma C2_scrub_idempotent_iff_no_slash_left_witness :
  scrubComments (scrubComments Example.fooIsBar) = scrubComments Example.fooIsBar.
Proof.
  apply (proj2 (C2_scrub_idempotent_iff_no_slash_left Example.fooIsBar)).
  split; reflexivity.
Defined.

(** C2, as stated, fails: scrubbing "a", newline, "//b" gives "a",
    newline, "/b", and scrubbing that gives "a", newline, "b"; scrubbing
    "/ /x" gives "/x", and scrubbing that gives "x". *)
Lemma C2_counterexample :
  scrubComments (scrubComments Example.twoSlashes)
  <> scrubComments Example.twoSlashes /\
  scrubComments (scrubComments "/ /x") <> scrubComments "/ /x".
Proof.
  split; vm_compute; discriminate.
Qed.

(** C3. On "// Foo is bar." followed by a newline the scrubber returns
    "Foo is bar."; on the block comment of the claim it removes the slash
    only, and what it returns begins with an asterisk. *)
Theorem C3_scrub_leaves_the_asterisk :
  scrubComments Example.fooIsBar = "Foo is bar." /\
  scrubComments Example.blockComment = Example.blockScrubbed /\
  strings.HasPrefix (scrubComments Example.blockComment) "*" = true /\
  endsSpace (b (scrubComments Example.blockComment)) = false.
Proof.
  repeat split; reflexivity.
Qed.

(** * The driver on the examples *)

Lemma C5_package_comment_sets_description_witness :
  Example.description
    (dt (worldOf (associateLocation Example.SetDescription Example.SetComment
                    Example.brokenFile Example.thePackage Example.start)))
  = "General package" /\
  resolved
    (trace (worldOf (associateLocation Example.SetDescription Example.SetComment
                       Example.brokenFile Example.thePackage Example.start)))
  = [].
Proof.
  destruct (C5_package_comment_sets_description Example.Tree
              Example.SetDescription Example.SetComment Example.brokenFile
              Example.thePackage Example.start eq_refl eq_refl) as [Hrun _].
  rewrite Hrun. split; reflexivity.
Defined.

Lemma C7_errors_do_not_abort_the_pass_witness :
  (exists w',
      AssociateComments Example.SetDescription Example.SetComment
        (Example.request Example.fiveLocations) Example.start
      = Completed tt w' /\
      opened (trace w') = map fieldsOf Example.fiveLocations) /\
  worldOf (associateLocation Example.SetDescription Example.SetComment
             (Example.shopFile []) Example.lost Example.start)
  = {| dt := Example.emptyTree;
       trace := opening Example.lost ++
                [LogDebugf "// lost" (ErrSecondItem 5 1)] |} /\
  worldOf (associateLocation Example.SetDescription Example.SetComment
             (Example.shopFile []) Example.anImport Example.start)
  = {| dt := Example.emptyTree;
       trace := opening Example.anImport ++
                [CallSetComment ["shop.proto"; "base.proto"] "an import"] |}.
Proof.
  destruct (C7_errors_do_not_abort_the_pass Example.Tree
              Example.SetDescription Example.SetComment
              (Example.request Example.fiveLocations) Example.start)
    as [Hpass [Herror Hplaced]].
  split; [|split].
  - destruct Hpass as [w' [Hrun Hopened]].
    + repeat constructor.
    + exists w'. split; [exact Hrun|]. rewrite Hopened. reflexivity.
  - rewrite (Herror (Example.shopFile []) Example.lost (ErrSecondItem 5 1)).
    + reflexivity.
    + reflexivity.
    + cbn. lia.
    + reflexivity.
  - rewrite (Hplaced (Example.shopFile []) Example.anImport
               ["shop.proto"; "base.proto"] Example.emptyTree
               "cannot find node in the tree").
    + reflexivity.
    + reflexivity.
    + cbn. lia.
    + reflexivity.
    + reflexivity.
Defined.

(** C7, as stated, fails: a location whose path makes the resolver panic
    aborts the pass, and the location after it, which the tree has a node
    for, is never looked at. *)
Lemma C7_counterexample :
  AssociateComments Example.SetDescription Example.SetComment
    (Example.request [Example.negativeIndex; Example.aWidget]) Example.start
  = Aborted PanicSliceIndex
      {| dt := Example.emptyTree; trace := opening Example.negativeIndex |} /\
  AssociateComments Example.SetDescription Example.SetComment
    (Example.request [Example.intoPackage; Example.aWidget]) Example.start
  = Aborted PanicNumFieldOfNonStruct
      {| dt := Example.emptyTree; trace := opening Example.intoPackage |} /\
  Example.comments
    (dt (worldOf (AssociateComments Example.SetDescription Example.SetComment
                    (Example.request [Example.aWidget]) Example.start)))
  = [(["shop.proto"; "Widget"], "A widget.")].
Proof.
  repeat split; reflexivity.
Qed.

Lemma C10_only_the_leading_comment_is_written_witness :
  written
    (trace (worldOf (associateLocation Example.SetDescription Example.SetComment
                       (Example.shopFile []) Example.detachedOnly Example.start)))
  = [""] /\
  written
    (trace (worldOf (associateLocation Example.SetDescription Example.SetComment
                       (Example.shopFile [])
                       (Example.at_ [4; 0] "" ["// 1"; "// 2"; "// 3"])
                       Example.start)))
  = written
      (trace (worldOf (associateLocation Example.SetDescription
                         Example.SetComment (Example.shopFile [])
                         Example.detachedOnly Example.start))).
Proof.
  destruct (C10_only_the_leading_comment_is_written Example.Tree
              Example.SetDescription Example.SetComment
              (Example.shopFile []) Example.detachedOnly Example.start)
    as [[evs [Htrace [_ Hwritten]]] Hdetached].
  split.
  - rewrite Htrace. cbn [trace Example.start app].
    apply Hwritten.
    + cbn. lia.
    + cbn. lia.
    + right. exists ["shop.proto"; "Widget"]. reflexivity.
  - apply (Hdetached ["// 1"; "// 2"; "// 3"]); reflexivity.
Defined.

(** * Further properties of the resolver *)

Lemma findProtobufField_sound proto_field : forall fields v label,
  findProtobufField proto_field fields = Ret (Some (v, label)) ->
  exists f,
    In (f, v) fields /\
    tagFieldNumber (reflect.Tag f) = Ret proto_field /\
    proto_field <> -1 /\
    label = protoFieldLabel (reflect.Tag f).
Proof.
  induction fields as [|[f v0] fields IH]; intros v label H;
    cbn [findProtobufField] in H; [discriminate|].
  destruct (tagFieldNumber (reflect.Tag f)) as [n| |] eqn:En; cbn [bind] in H;
    try discriminate.
  destruct (negb (n =? -1) && (n =? proto_field)) eqn:Em.
  - inversion H; subst. apply andb_prop in Em as [Hne Heq].
    apply Z.eqb_eq in Heq. subst n.
    apply negb_true_iff, Z.eqb_neq in Hne.
    exists f. split; [left; reflexivity|]. repeat split; assumption.
  - destruct (IH _ _ H) as [f' [Hin Hrest]].
    exists f'. split; [right; exact Hin|exact Hrest].
Qed.

Lemma findProtobufField_first proto_field f v : forall before after,
  noMemberTagged proto_field before = true ->
  tagFieldNumber (reflect.Tag f) = Ret proto_field ->
  proto_field <> -1 ->
  findProtobufField proto_field (before ++ (f, v) :: after)
  = Ret (Some (v, protoFieldLabel (reflect.Tag f))).
Proof.
  unfold noMemberTagged.
  induction before as [|[g u] before IH]; intros after Hnone Htag Hne.
  - cbn [app findProtobufField]. rewrite Htag. cbn [bind].
    rewrite Z.eqb_refl, andb_true_r.
    apply Z.eqb_neq in Hne. rewrite Hne. reflexivity.
  - cbn [forallb fst] in Hnone. apply andb_prop in Hnone as [Hg Hrest].
    cbn [app findProtobufField].
    destruct (String.length (reflect.Tag g) =? 0)%nat eqn:El.
    + unfold tagFieldNumber at 1. rewrite El. cbn [bind].
      cbn. apply IH; assumption.
    + cbn [orb] in Hg.
      destruct (tagFieldNumber (reflect.Tag g)) as [n| |]; try discriminate.
      cbn [bind]. apply negb_true_iff in Hg. rewrite Hg, andb_false_r.
      apply IH; assumption.
Qed.

(** X1. When [getProtobufField] returns a field, the message is a struct,
    the field is the value of one of its members, the protobuf tag of that
    member carries the number asked for, which is not -1, and the label
    returned is the label of that tag. *)
Theorem X1_getProtobufField_sound
    (proto_field : Z) (proto_msg v : reflect.Value) (label : string) :
  getProtobufField proto_field proto_msg = Ret (v, label) ->
  exists fields f,
    proto_msg = reflect.StructOf fields /\
    In (f, v) fields /\
    tagFieldNumber (reflect.Tag f) = Ret proto_field /\
    proto_field <> -1 /\
    label = protoFieldLabel (reflect.Tag f).
Proof.
  destruct proto_msg; cbn [getProtobufField]; try discriminate.
  destruct (findProtobufField proto_field fields) as [[[v' l']|]| |] eqn:E;
    cbn [bind]; try discriminate.
  intros H; inversion H; subst.
  destruct (findProtobufField_sound _ _ _ _ E) as [f Hf].
  exists fields, f. split; [reflexivity|exact Hf].
Qed.

Lemma X1_getProtobufField_sound_witness :
  exists fields f,
    Example.widget = reflect.StructOf fields /\
    In (f, reflect.SliceOf [reflect.PtrTo (Example.fieldDescriptor "id")]) fields /\
    tagFieldNumber (reflect.Tag f) = Ret 2 /\
    2 <> -1 /\
    "field" = protoFieldLabel (reflect.Tag f).
Proof.
  apply (X1_getProtobufField_sound 2 Example.widget). reflexivity.
Defined.

(** X2. The first member whose tag carries the number is the one
    [getProtobufField] returns, with the label of its tag: the members
    before it must be untagged or tagged with other numbers, the members
    after it are not looked at. *)
Theorem X2_getProtobufField_first_match
    (proto_field : Z) (f : reflect.StructField) (v : reflect.Value)
    (before after : list (reflect.StructField * reflect.Value)) :
  noMemberTagged proto_field before = true ->
  tagFieldNumber (reflect.Tag f) = Ret proto_field ->
  proto_field <> -1 ->
  getProtobufField proto_field (reflect.StructOf (before ++ (f, v) :: after))
  = Ret (v, protoFieldLabel (reflect.Tag f)).
Proof.
  intros Hnone Htag Hne. cbn [getProtobufField].
  rewrite (findProtobufField_first _ _ _ _ _ Hnone Htag Hne). reflexivity.
Qed.

Lemma X2_getProtobufField_first_match_witness :
  getProtobufField 2
    (reflect.StructOf
       ([Example.member "Name" "bytes,1,opt,name=name" (Example.stringPtr "m")]
        ++ (Example.member "Field" "bytes,2,rep,name=field" (reflect.SliceOf []))
        :: [Example.member "Again" "bytes,2,rep,name=again" Example.noBytes;
            Example.member "Broken" "nocomma" Example.noBytes]))
  = Ret (reflect.SliceOf [], "field").
Proof.
  apply (X2_getProtobufField_first_match 2
           {| reflect.Name := "Field"; reflect.Tag := "bytes,2,rep,name=field" |}
           (reflect.SliceOf [])).
  - reflexivity.
  - reflexivity.
  - discriminate.
Defined.

(** X3. [getCollectionIndex] on a slice returns the element at the index
    exactly when the index is within bounds; an index at or beyond the
    length raises the panic of [getCollectionIndex], a negative index the
    panic of reflect's [Index]. *)
Theorem X3_getCollectionIndex_bounds
    (elems : list reflect.Value) (index : Z) :
  (0 <= index < Z.of_nat (List.length elems) ->
   exists v, nth_error elems (Z.to_nat index) = Some v /\
             getCollectionIndex (reflect.SliceOf elems) index = Ret v) /\
  (Z.of_nat (List.length elems) <= index ->
   getCollectionIndex (reflect.SliceOf elems) index
   = Panic (PanicCannotAccessIndex (List.length elems) index)) /\
  (index < 0 ->
   getCollectionIndex (reflect.SliceOf elems) index = Panic PanicSliceIndex).
Proof.
  unfold getCollectionIndex. cbn [Len bind Index].
  split; [|split]; intros H.
  - destruct (index >=? Z.of_nat (List.length elems)) eqn:E1.
    { rewrite Z.geb_leb in E1. apply Z.leb_le in E1. lia. }
    destruct (index <? 0) eqn:E2; [apply Z.ltb_lt in E2; lia|].
    destruct (nth_error elems (Z.to_nat index)) as [v|] eqn:E3.
    + exists v. split; reflexivity.
    + apply nth_error_None in E3. lia.
  - destruct (index >=? Z.of_nat (List.length elems)) eqn:E1; [reflexivity|].
    rewrite Z.geb_leb in E1. apply Z.leb_gt in E1. lia.
  - destruct (index >=? Z.of_nat (List.length elems)) eqn:E1.
    { rewrite Z.geb_leb in E1. apply Z.leb_le in E1. lia. }
    destruct (index <? 0) eqn:E2; [reflexivity|]. apply Z.ltb_ge in E2. lia.
Qed.

Lemma X3_getCollectionIndex_bounds_witness :
  getCollectionIndex (reflect.SliceOf [reflect.StringOf "a"; reflect.StringOf "b"]) 1
  = Ret (reflect.StringOf "b") /\
  getCollectionIndex (reflect.SliceOf [reflect.StringOf "a"; reflect.StringOf "b"]) 2
  = Panic (PanicCannotAccessIndex 2 2) /\
  getCollectionIndex (reflect.SliceOf [reflect.StringOf "a"; reflect.StringOf "b"]) (-1)
  = Panic PanicSliceIndex.
Proof.
  split; [|split].
  - destruct (X3_getCollectionIndex_bounds
                [reflect.StringOf "a"; reflect.StringOf "b"] 1) as [H _].
    destruct H as [v [Hnth Hres]]; [cbn; lia|].
    rewrite Hres. cbn in Hnth. inversion Hnth. reflexivity.
  - apply (X3_getCollectionIndex_bounds
             [reflect.StringOf "a"; reflect.StringOf "b"] 2). cbn. lia.
  - apply (X3_getCollectionIndex_bounds
             [reflect.StringOf "a"; reflect.StringOf "b"] (-1)). lia.
Defined.

Lemma activation_returns_names path node names :
  activation path node = Returns (Ret names) ->
  path = [] /\ exists st_name, names = [st_name].
Proof.
  unfold activation.
  destruct (nameOfNode node) as [[st n]| |]; try discriminate.
  destruct path as [|p0 [|p1 rest]]; cbn [List.length Nat.eqb nth].
  - intros H; inversion H; subst. split; [reflexivity|]. exists st. reflexivity.
  - destruct (getProtobufField p0 n) as [[f l]| |]; discriminate.
  - destruct (getProtobufField p0 n) as [[f l]| |]; try discriminate.
    destruct f; try discriminate.
    destruct (p1 >=? _); try discriminate.
    destruct (getCollectionIndex _ _); discriminate.
Qed.

Lemma prepend_names st_name r names :
  prepend st_name r = Ret names ->
  exists rv, r = Ret rv /\ names = st_name :: rv.
Proof.
  destruct r as [rv| |]; cbn; try discriminate.
  intros H; inversion H; subst. exists rv. split; reflexivity.
Qed.

Lemma buildNamePath_length_bounded n : forall path node names,
  (List.length path <= n)%nat ->
  buildNamePath path node = Ret names ->
  (List.length names <= S (List.length path))%nat /\
  (List.length path + 2 <= 2 * List.length names)%nat.
Proof.
  induction n as [|n IH]; intros path node names Hn Hres;
    rewrite buildNamePath_activation in Hres;
    destruct (activation path node) as [r|st p' n'|st p' n'] eqn:Ea.
  - subst r. destruct (activation_returns_names _ _ _ Ea) as [-> [st ->]].
    cbn. lia.
  - apply activation_field_length in Ea as [_ Hlen]. lia.
  - apply activation_elem_length in Ea as [_ Hlen]. lia.
  - subst r. destruct (activation_returns_names _ _ _ Ea) as [-> [st ->]].
    cbn. lia.
  - apply activation_field_length in Ea as [_ Hlen].
    apply prepend_names in Hres as [rv [Hrv ->]].
    destruct (IH p' n' rv ltac:(lia) Hrv). cbn [List.length]. lia.
  - apply activation_elem_length in Ea as [_ Hlen].
    apply prepend_names in Hres as [rv [Hrv ->]].
    destruct (IH p' n' rv ltac:(lia) Hrv). cbn [List.length]. lia.
Qed.

(** X4. A path of exactly one element never resolves: whatever the node,
    [buildNamePath] returns an error or panics on it.  (The driver sends
    such paths to [SetDescription] instead.) *)
Theorem X4_buildNamePath_single_element_path
    (number : Z) (node : reflect.Value) (names : list string) :
  buildNamePath [number] node <> Ret names.
Proof.
  cbn [buildNamePath].
  destruct (nameOfNode node) as [[st n]| |]; cbn [bind]; try discriminate.
  destruct (getProtobufField number n) as [[f l]| |]; cbn [bind]; discriminate.
Qed.

(** X5. A name path that [buildNamePath] returns has one name for the node
    and one for each recursive call, and each call consumed one or two
    elements of the path: the name path is not empty, it has at most one
    name more than the path has elements, and the path has at most twice
    as many elements as there are names after the first. *)
Theorem X5_buildNamePath_length
    (path : list Z) (node : reflect.Value) (names : list string) :
  buildNamePath path node = Ret names ->
  (1 <= List.length names <= S (List.length path))%nat /\
  (List.length path <= 2 * (List.length names - 1))%nat.
Proof.
  intros H.
  destruct (buildNamePath_length_bounded (List.length path) path node names
              (le_n _) H).
  lia.
Qed.

Lemma X5_buildNamePath_length_witness :
  (1 <= List.length ["shop.proto"; "Widget"; "id"] <= S (List.length [4; 0; 2; 0]))%nat /\
  (List.length [4; 0; 2; 0]
   <= 2 * (List.length ["shop.proto"; "Widget"; "id"] - 1))%nat.
Proof.
  apply (X5_buildNamePath_length [4; 0; 2; 0] Example.shop). reflexivity.
Defined.



Lemma buildNamePath_head path node name names :
  structName node = Ret name ->
  buildNamePath path node = Ret names ->
  exists rest, names = name :: rest.
Proof.
  intros Hname Hres.
  destruct (structName_struct _ _ Hname) as [fs ->].
  assert (Hn := nameOfNode_struct _ _ Hname).
  rewrite buildNamePath_activation in Hres. unfold activation in Hres.
  rewrite Hn in Hres.
  destruct (List.length path =? 0)%nat.
  { inversion Hres; subst. exists []. reflexivity. }
  destruct (getProtobufField _ _) as [[f l]| |]; try discriminate.
  destruct (List.length path =? 1)%nat; [discriminate|].
  destruct f;
    try (apply prepend_names in Hres as [rv [_ ->]]; exists rv; reflexivity).
  destruct (_ >=? _); [discriminate|].
  destruct (getCollectionIndex _ _); try discriminate.
  apply prepend_names in Hres as [rv [_ ->]]. exists rv. reflexivity.
Qed.

Lemma buildNamePath_struct_name path node names :
  buildNamePath path node = Ret names ->
  forall fields, node = reflect.StructOf fields ->
  exists name, structName node = Ret name.
Proof.
  intros Hres fields ->.
  destruct (structName (reflect.StructOf fields)) as [name| |] eqn:E;
    [exists name; reflexivity| |];
    destruct path; cbn [buildNamePath nameOfNode] in Hres;
    rewrite E in Hres; discriminate.
Qed.

(** * Further properties of the driver *)

Lemma skipFile_fold name : forall gens skip,
  fold_left (fun skip gen => if String.eqb name gen then false else skip)
    gens skip
  = skip && negb (existsb (String.eqb name) gens).
Proof.
  induction gens as [|gen gens IH]; intros skip; cbn [fold_left existsb].
  - rewrite andb_true_r. reflexivity.
  - rewrite IH. destruct (String.eqb name gen); cbn.
    + rewrite andb_false_r. reflexivity.
    + reflexivity.
Qed.

Lemma skipFile_In req file :
  skipFile req file = false <-> In (GetName file) (FileToGenerate req).
Proof.
  unfold skipFile. rewrite skipFile_fold. cbn [andb].
  rewrite negb_false_iff, existsb_exists.
  split.
  - intros [gen [Hin Heq]]. apply String.eqb_eq in Heq. subst. exact Hin.
  - intros Hin. exists (GetName file). split; [exact Hin|apply String.eqb_refl].
Qed.

Lemma workList_hasComment req fl :
  In fl (workList req) -> hasComment (snd fl) = true.
Proof.
  unfold workList. rewrite in_flat_map. intros [file [_ Hin]].
  destruct (skipFile req file); [destruct Hin|].
  apply in_map_iff in Hin as [l [<- Hl]]. apply filter_In in Hl as [_ Hl].
  exact Hl.
Qed.

Section DriverMore.

Variable Deftree : Type.
Variable SetDescription : Deftree -> string -> Deftree.
Variable SetComment :
  Deftree -> list string -> string -> Deftree * option string.

Local Abbreviation work := (workOn SetDescription SetComment).

Lemma forEach_app {A} (body : A -> M Deftree unit) : forall l1 l2 w,
  forEach body (l1 ++ l2) w =
  match forEach body l1 w with
  | Completed _ w1 => forEach body l2 w1
  | Aborted p w1 => Aborted p w1
  end.
Proof.
  induction l1 as [|x l1 IH]; intros l2 w; [reflexivity|].
  cbn [app forEach]. unfold andThen.
  destruct (body x w) as [[] w1|p w1]; [apply IH|reflexivity].
Qed.

Lemma forEach_locations_work file : forall locations w,
  forEach (associateLocation SetDescription SetComment file) locations w
  = forEach work (map (pair file) (filter hasComment locations)) w.
Proof.
  induction locations as [|l ls IH]; intros w; [reflexivity|].
  cbn [forEach filter]. destruct (hasComment l) eqn:Hc.
  - cbn [map forEach]. unfold andThen, workOn at 1. cbn [fst snd].
    destruct (associateLocation _ _ file l w) as [[] w1|p w1];
      [apply IH|reflexivity].
  - unfold andThen. rewrite associateLocation_no_comment by exact Hc. apply IH.
Qed.

Lemma forEach_files_work req : forall files w,
  forEach (associateFile SetDescription SetComment req) files w
  = forEach work
      (flat_map
         (fun file =>
            if skipFile req file then []
            else map (pair file) (filter hasComment (GetLocation file)))
         files) w.
Proof.
  induction files as [|file files IH]; intros w; [reflexivity|].
  cbn [forEach flat_map]. rewrite forEach_app. unfold andThen, associateFile.
  destruct (skipFile req file).
  - cbn [ret forEach]. apply IH.
  - rewrite forEach_locations_work.
    destruct (forEach work _ w) as [[] w1|p w1]; [apply IH|reflexivity].
Qed.

Lemma AssociateComments_work req w :
  AssociateComments SetDescription SetComment req w
  = forEach work (workList req) w.
Proof. apply forEach_files_work. Qed.

(** X7. A file is worked on exactly when its name is among the files to
    generate; on any other file the driver does nothing at all, whatever
    its locations and comments are. *)
Theorem X7_only_files_to_generate
    (req : CodeGeneratorRequest) (file : FileDescriptorProto)
    (w : World Deftree) :
  (In (GetName file) (FileToGenerate req) ->
   associateFile SetDescription SetComment req file w
   = forEach (associateLocation SetDescription SetComment file)
       (GetLocation file) w) /\
  (~ In (GetName file) (FileToGenerate req) ->
   associateFile SetDescription SetComment req file w = Completed tt w).
Proof.
  unfold associateFile. split; intros H.
  - apply skipFile_In in H. rewrite H. reflexivity.
  - destruct (skipFile req file) eqn:E; [reflexivity|].
    apply skipFile_In in E. contradiction.
Qed.

(** X8. The pass is the work on the locations of the work list, one after
    the other: the locations with a comment of the files to generate, in
    the order of the request.  In particular a request with an empty work
    list leaves the tree and the log as they are. *)
Theorem X8_pass_is_the_work_list
    (req : CodeGeneratorRequest) (w : World Deftree) :
  AssociateComments SetDescription SetComment req w
  = forEach (workOn SetDescription SetComment) (workList req) w
  /\ (workList req = [] ->
      AssociateComments SetDescription SetComment req w = Completed tt w).
Proof.
  assert (H := AssociateComments_work req w).
  split; [exact H|]. intros E. rewrite H, E. reflexivity.
Qed.

(** X9. A panic of the resolver ends the pass: when the resolver panics on
    a location of the work list and the locations before it were worked
    off, the pass is aborted with that panic, in the world those locations
    left, the log extended by the opening of the location; no location
    after it is looked at. *)
Theorem X9_resolver_panic_aborts_the_pass
    (req : CodeGeneratorRequest) (w w1 : World Deftree)
    (before after : list (FileDescriptorProto * Location))
    (file : FileDescriptorProto) (location : Location) (p : PanicValue) :
  workList req = before ++ (file, location) :: after ->
  forEach (workOn SetDescription SetComment) before w = Completed tt w1 ->
  List.length (Path location) <> 1%nat ->
  buildNamePath (Path location) (ValueOf file) = Panic p ->
  AssociateComments SetDescription SetComment req w
  = Aborted p {| dt := dt w1; trace := trace w1 ++ opening location |}.
Proof.
  intros Hlist Hbefore Hlen Hpanic.
  assert (Hc : hasComment location = true).
  { apply (workList_hasComment req (file, location)).
    rewrite Hlist. apply in_or_app. right. left. reflexivity. }
  assert (H := AssociateComments_work req w).
  rewrite H, Hlist, forEach_app. rewrite Hbefore.
  cbn [forEach]. unfold andThen, workOn at 1. cbn [fst snd].
  rewrite (associateLocation_panic _ _ _ _ _ _ _ Hc Hlen Hpanic). reflexivity.
Qed.

End DriverMore.

Lemma X7_only_files_to_generate_witness :
  associateFile Example.SetDescription Example.SetComment
    {| FileToGenerate := ["other.proto"];
       GetProtoFile := [Example.shopFile Example.fiveLocations] |}
    (Example.shopFile Example.fiveLocations) Example.start
  = Completed tt Example.start /\
  associateFile Example.SetDescription Example.SetComment
    (Example.request []) (Example.shopFile [Example.thePackage]) Example.start
  = forEach
      (associateLocation Example.SetDescription Example.SetComment
         (Example.shopFile [Example.thePackage]))
      [Example.thePackage] Example.start.
Proof.
  split.
  - apply (X7_only_files_to_generate Example.Tree Example.SetDescription
             Example.SetComment). cbn. intros [H|[]]. discriminate.
  - apply (X7_only_files_to_generate Example.Tree Example.SetDescription
             Example.SetComment (Example.request [])
             (Example.shopFile [Example.thePackage])).
    left. reflexivity.
Defined.

Lemma X8_pass_is_the_work_list_witness :
  AssociateComments Example.SetDescription Example.SetComment
    (Example.request [Example.at_ [4; 0] "/" ["// alone"]]) Example.start
  = Completed tt Example.start.
Proof.
  apply (X8_pass_is_the_work_list Example.Tree Example.SetDescription
           Example.SetComment). reflexivity.
Defined.

Lemma X9_resolver_panic_aborts_the_pass_witness :
  AssociateComments Example.SetDescription Example.SetComment
    (Example.request [Example.thePackage; Example.negativeIndex; Example.aWidget])
    Example.start
  = Aborted PanicSliceIndex
      {| dt := Example.SetDescription Example.emptyTree "General package";
         trace :=
           [LogDebug (fieldsOf Example.thePackage) "Comment describes package name";
            CallSetDescription "General package"]
           ++ opening Example.negativeIndex |}.
Proof.
  apply (X9_resolver_panic_aborts_the_pass Example.Tree Example.SetDescription
           Example.SetComment _ Example.start
           {| dt := Example.SetDescription Example.emptyTree "General package";
              trace :=
                [LogDebug (fieldsOf Example.thePackage)
                   "Comment describes package name";
                 CallSetDescription "General package"] |}
           [(Example.shopFile [Example.thePackage; Example.negativeIndex;
                               Example.aWidget], Example.thePackage)]
           [(Example.shopFile [Example.thePackage; Example.negativeIndex;
                               Example.aWidget], Example.aWidget)]
           (Example.shopFile [Example.thePackage; Example.negativeIndex;
                               Example.aWidget])
           Example.negativeIndex PanicSliceIndex).
  - reflexivity.
  - reflexivity.
  - cbn. lia.
  - reflexivity.
Defined.

Lemma placed_app evs evs' : placed (evs ++ evs') = placed evs ++ placed evs'.
Proof. apply flat_map_app. Qed.

Lemma placed_afterSetComment err : placed (afterSetComment err) = [].
Proof.
  destruct err as [e|]; cbn; [|reflexivity].
  destruct (strings.Contains e "cannot find node"); reflexivity.
Qed.

Section DriverWrites.

Variable Deftree : Type.
Variable SetDescription : Deftree -> string -> Deftree.
Variable SetComment :
  Deftree -> list string -> string -> Deftree * option string.

(** What one location adds to the trace: at most one text is written, and
    a name path handed to [SetComment] is what the resolver returned. *)
Lemma associateLocation_writes file location w :
  exists evs,
    trace (worldOf (associateLocation SetDescription SetComment file location w))
    = trace w ++ evs /\
    (List.length (written evs) <= 1)%nat /\
    (forall name_path, In name_path (placed evs) ->
       buildNamePath (Path location) (ValueOf file) = Ret name_path).
Proof.
  destruct (hasComment location) eqn:Hc.
  2:{ exists []. rewrite associateLocation_no_comment by exact Hc.
      cbn. rewrite app_nil_r. repeat split; [lia|intros ? []]. }
  destruct (Nat.eq_dec (List.length (Path location)) 1) as [Hlen|Hlen].
  { eexists. rewrite associateLocation_package by assumption.
    cbn [worldOf trace]. split; [reflexivity|]. cbn.
    split; [lia|intros ? []]. }
  destruct (buildNamePath (Path location) (ValueOf file)) as [np|err|p] eqn:Hres.
  - destruct (SetComment (dt w) np (scrubComments (GetLeadingComments location)))
      as [dt' err] eqn:Hset.
    eexists. rewrite (associateLocation_placed _ _ _ _ _ _ _ _ _ Hc Hlen Hres Hset).
    cbn [worldOf trace]. split; [reflexivity|].
    rewrite !written_app, written_afterSetComment.
    rewrite !placed_app, placed_afterSetComment. cbn.
    split; [lia|]. intros name_path [<-|[]]. reflexivity.
  - eexists. rewrite (associateLocation_error _ _ _ _ _ _ _ Hc Hlen Hres).
    cbn [worldOf trace]. split; [reflexivity|]. cbn.
    split; [lia|intros ? []].
  - eexists. rewrite (associateLocation_panic _ _ _ _ _ _ _ Hc Hlen Hres).
    cbn [worldOf trace]. split; [reflexivity|]. cbn.
    split; [lia|intros ? []].
Qed.

Lemma forEach_work_writes : forall work_list w,
  exists evs,
    trace (worldOf (forEach (workOn SetDescription SetComment) work_list w))
    = trace w ++ evs /\
    (List.length (written evs) <= List.length work_list)%nat /\
    (forall name_path, In name_path (placed evs) ->
       exists fl, In fl work_list /\
         buildNamePath (Path (snd fl)) (ValueOf (fst fl)) = Ret name_path).
Proof.
  induction work_list as [|fl fls IH]; intros w.
  - exists []. cbn. rewrite app_nil_r. repeat split; [lia|intros ? []].
  - destruct (associateLocation_writes (fst fl) (snd fl) w)
      as [evs1 [Ht1 [Hw1 Hp1]]].
    cbn [forEach]. unfold andThen, workOn at 1.
    destruct (associateLocation _ _ (fst fl) (snd fl) w) as [[] w1|p w1].
    + cbn [worldOf] in Ht1. destruct (IH w1) as [evs2 [Ht2 [Hw2 Hp2]]].
      exists (evs1 ++ evs2). rewrite Ht2, Ht1, app_assoc.
      split; [reflexivity|]. rewrite written_app, placed_app, length_app.
      cbn [List.length]. split; [lia|].
      intros np Hin. apply in_app_or in Hin as [Hin|Hin].
      * exists fl. split; [left; reflexivity|apply Hp1, Hin].
      * destruct (Hp2 np Hin) as [fl' [Hfl' Hres]].
        exists fl'. split; [right; exact Hfl'|exact Hres].
    + cbn [worldOf] in Ht1 |- *. exists evs1.
      split; [exact Ht1|]. cbn [List.length]. split; [lia|].
      intros np Hin. exists fl. split; [left; reflexivity|apply Hp1, Hin].
Qed.

(** X10. Whether the pass completes or is aborted, it only adds to the
    trace, and it writes at most one text to the tree for each location of
    the work list. *)
Theorem X10_at_most_one_write_per_location
    (req : CodeGeneratorRequest) (w : World Deftree) :
  exists evs,
    trace (worldOf (AssociateComments SetDescription SetComment req w))
    = trace w ++ evs /\
    (List.length (written evs) <= List.length (workList req))%nat.
Proof.
  destruct (forEach_work_writes (workList req) w) as [evs [Ht [Hw _]]].
  exists evs. split; [|exact Hw].
  rewrite AssociateComments_work. exact Ht.
Qed.

(** X11. Every name path the pass hands to [SetComment] is one the
    resolver returned for a location of the work list, and it begins with
    the Name of that location's file descriptor (the values of the files
    are structs, as [reflect.ValueOf( *file )] is). *)
Theorem X11_name_paths_begin_with_the_file
    (req : CodeGeneratorRequest) (w : World Deftree) (name_path : list string) :
  (forall fl, In fl (workList req) ->
     exists fields, ValueOf (fst fl) = reflect.StructOf fields) ->
  In name_path
    (placed (skipn (List.length (trace w))
               (trace (worldOf (AssociateComments SetDescription SetComment
                                  req w))))) ->
  exists fl name rest,
    In fl (workList req) /\
    structName (ValueOf (fst fl)) = Ret name /\
    buildNamePath (Path (snd fl)) (ValueOf (fst fl)) = Ret name_path /\
    name_path = name :: rest.
Proof.
  intros Hstruct Hin.
  destruct (forEach_work_writes (workList req) w) as [evs [Ht [_ Hp]]].
  rewrite AssociateComments_work in Hin.
  rewrite Ht, skipn_app, skipn_all, Nat.sub_diag in Hin. cbn [app skipn] in Hin.
  destruct (Hp _ Hin) as [fl [Hfl Hres]].
  destruct (Hstruct fl Hfl) as [fields Hfields].
  destruct (buildNamePath_struct_name _ _ _ Hres _ Hfields) as [name Hname].
  destruct (buildNamePath_head _ _ _ _ Hname Hres) as [rest ->].
  exists fl, name, rest. repeat split; assumption.
Qed.

End DriverWrites.

(** * Further properties of the scrubber *)

Lemma b_length s : List.length (b s) = String.length s.
Proof.
  induction s as [|c s IH]; [reflexivity|].
  cbn. f_equal. exact IH.
Qed.

Lemma b_app s t : b (s ++ t)%string = b s ++ b t.
Proof.
  induction s as [|c s IH]; [reflexivity|].
  cbn. f_equal. exact IH.
Qed.

Lemma Subseq_refl {A} (s : list A) : Subseq s s.
Proof. induction s; constructor; assumption. Qed.

Lemma Subseq_nil_l {A} (t : list A) : Subseq [] t.
Proof. induction t; constructor; assumption. Qed.

Lemma Subseq_trans {A} (s t u : list A) :
  Subseq s t -> Subseq t u -> Subseq s u.
Proof.
  intros Hst Htu. revert s Hst.
  induction Htu as [|x t u _ IH|x t u _ IH]; intros s Hst.
  - exact Hst.
  - constructor. apply IH, Hst.
  - inversion Hst; subst.
    + apply subseq_drop, IH. assumption.
    + apply subseq_keep, IH. assumption.
Qed.

Lemma Subseq_app_drop {A} (pre s t : list A) :
  Subseq s t -> Subseq s (pre ++ t).
Proof.
  intros H. induction pre; cbn [app]; [exact H|constructor; exact IHpre].
Qed.

Lemma Subseq_length {A} (s t : list A) :
  Subseq s t -> (List.length s <= List.length t)%nat.
Proof. induction 1; cbn [List.length]; lia. Qed.

Lemma replace_subseq c old_tail : forall s k,
  Subseq (strings.replace (c :: old_tail) [c] k s) s.
Proof.
  induction s as [|x s IH]; intros k; [constructor|].
  cbn [strings.replace]. destruct k as [|k].
  - destruct (strings.hasPrefix (x :: s) (c :: old_tail)) eqn:Hp.
    + cbn [strings.hasPrefix] in Hp. apply andb_prop in Hp as [Hx _].
      apply Ascii.eqb_eq in Hx. subst x.
      cbn [app]. apply subseq_keep, IH.
    + apply subseq_keep, IH.
  - apply subseq_drop, IH.
Qed.

Lemma dropWhile_subseq p s : Subseq (dropWhile p s) s.
Proof.
  induction s as [|c s IH]; [constructor|].
  cbn [dropWhile]. destruct (p c); [apply subseq_drop, IH|apply Subseq_refl].
Qed.

Lemma ltrim_subseq s : Subseq (ltrim s) s.
Proof.
  rewrite ltrim_dropWhile.
  eapply Subseq_trans; apply dropWhile_subseq.
Qed.

Lemma rtrim_subseq s : Subseq (rtrim s) s.
Proof.
  induction s as [|c s IH]; [constructor|].
  rewrite rtrim_cons. destruct (allSpace (c :: s)).
  - apply Subseq_nil_l.
  - apply subseq_keep, IH.
Qed.

(** The match of white space up to a newline ends with the newline. *)
Lemma toLF_some_newline : forall s n,
  toLF s = Some n -> exists pre, s = pre ++ LF :: skipn n s.
Proof.
  induction s as [|c s IH]; intros n H; [discriminate|].
  rewrite toLF_cons in H.
  destruct (regexp.isSpace c); [|discriminate].
  destruct (toLF s) as [m|] eqn:Hm.
  - inversion H; subst. destruct (IH m eq_refl) as [pre Hpre].
    exists (c :: pre). cbn [skipn app]. rewrite <- Hpre. reflexivity.
  - destruct (Ascii.eqb c LF) eqn:Ec; [|discriminate].
    inversion H; subst. apply Ascii.eqb_eq in Ec. subst c.
    exists []. reflexivity.
Qed.

Lemma collapse_subseq_bounded n : forall s,
  (List.length s <= n)%nat -> Subseq (collapse s) s.
Proof.
  induction n as [|n IH]; intros s Hn.
  - destruct s; [constructor|cbn in Hn; lia].
  - destruct s as [|c s]; [constructor|]. cbn [List.length] in Hn.
    rewrite collapse_cons.
    assert (Hkeep : Subseq (c :: collapse s) (c :: s))
      by (apply subseq_keep, IH; lia).
    destruct (regexp.isSpace c); [|exact Hkeep].
    destruct (toLF s) as [m|] eqn:Hm; [|exact Hkeep].
    destruct (toLF_some_newline _ _ Hm) as [pre Hpre].
    apply subseq_drop. rewrite Hpre at 2.
    apply Subseq_app_drop, subseq_keep, IH.
    rewrite length_skipn. lia.
Qed.

Lemma collapse_subseq s : Subseq (collapse s) s.
Proof. apply (collapse_subseq_bounded (List.length s)). lia. Qed.

(** X12. Whatever the comment, the scrubbed comment neither begins nor
    ends with a white space character, and none of its white space
    characters is followed by a newline. *)
Theorem X12_scrubComments_shape (comment : string) :
  startsSpace (b (scrubComments comment)) = false /\
  endsSpace (b (scrubComments comment)) = false /\
  noSpaceLF (b (scrubComments comment)) = true.
Proof.
  rewrite scrubComments_bytes.
  split; [|split].
  - apply collapse_startsSpace, rtrim_startsSpace, ltrim_startsSpace.
  - apply collapse_endsSpace, rtrim_endsSpace.
  - apply collapse_noSpaceLF.
Qed.

(** X13. [scrubComments] only deletes: the bytes of the scrubbed comment
    are bytes of the comment, in the same order; in particular the
    scrubbed comment is never longer than the comment. *)
Theorem X13_scrubComments_only_deletes (comment : string) :
  Subseq (b (scrubComments comment)) (b comment) /\
  (String.length (scrubComments comment) <= String.length comment)%nat.
Proof.
  assert (H : Subseq (b (scrubComments comment)) (b comment)).
  { rewrite scrubComments_bytes.
    eapply Subseq_trans; [apply collapse_subseq|].
    eapply Subseq_trans; [apply rtrim_subseq|].
    eapply Subseq_trans; [apply ltrim_subseq|].
    eapply Subseq_trans; [apply (replace_subseq LF [SLASH])|].
    apply (replace_subseq LF [SLASH; " "%char]). }
  split; [exact H|].
  apply Subseq_length in H. rewrite !b_length in H. exact H.
Qed.

Lemma isSlash_not_LF c : isSlash c = true -> Ascii.eqb c LF = false.
Proof.
  unfold isSlash. intros H. apply Ascii.eqb_eq in H. subst. reflexivity.
Qed.

Lemma isSpace_not_slash c : regexp.isSpace c = true -> Ascii.eqb c SLASH = false.
Proof.
  intros H. destruct (Ascii.eqb c SLASH) eqn:E; [|reflexivity].
  apply Ascii.eqb_eq in E. subst. discriminate H.
Qed.

Lemma hasPrefix_one c x s :
  strings.hasPrefix (x :: s) [c] = Ascii.eqb x c.
Proof.
  cbn [strings.hasPrefix]. destruct s; apply andb_true_r.
Qed.

Lemma hasPrefix_slash_space_app ws rest :
  allSpace ws = true ->
  strings.hasPrefix rest [SLASH] = false ->
  strings.hasPrefix (ws ++ rest) [SLASH] = false.
Proof.
  destruct ws as [|c ws]; intros Hws Hrest; [exact Hrest|].
  cbn [app]. rewrite hasPrefix_one. apply isSpace_not_slash.
  cbn [allSpace forallb] in Hws. apply andb_prop in Hws as [Hc _]. exact Hc.
Qed.

Lemma contains_slashes_app slashes rest :
  forallb isSlash slashes = true ->
  strings.contains (slashes ++ rest) [LF; SLASH]
  = strings.contains rest [LF; SLASH].
Proof.
  induction slashes as [|c sl IH]; intros H; [reflexivity|].
  cbn [forallb] in H. apply andb_prop in H as [Hc Hsl].
  cbn [app strings.contains strings.hasPrefix].
  rewrite (isSlash_not_LF _ Hc). cbn [andb orb]. apply IH, Hsl.
Qed.

Lemma contains_space_app ws rest :
  allSpace ws = true ->
  strings.hasPrefix rest [SLASH] = false ->
  strings.contains (ws ++ rest) [LF; SLASH]
  = strings.contains rest [LF; SLASH].
Proof.
  induction ws as [|c ws IH]; intros Hws Hrest; [reflexivity|].
  cbn [allSpace forallb] in Hws. apply andb_prop in Hws as [Hc Hws].
  cbn [app strings.contains].
  replace (strings.hasPrefix (c :: ws ++ rest) [LF; SLASH]) with false.
  - cbn [orb]. apply IH; assumption.
  - cbn [strings.hasPrefix].
    change (match ws ++ rest with
            | [] => false
            | c0 :: s' => (c0 =? SLASH)%char && strings.hasPrefix s' []
            end) with (strings.hasPrefix (ws ++ rest) [SLASH]).
    rewrite (hasPrefix_slash_space_app ws rest Hws Hrest), andb_false_r.
    reflexivity.
Qed.

Lemma hasPrefix_slash_text_app text ws :
  allSpace ws = true ->
  strings.hasPrefix text [SLASH] = false ->
  strings.hasPrefix (text ++ ws) [SLASH] = false.
Proof.
  destruct text as [|c t]; intros Hws Ht.
  - cbn [app]. rewrite <- (app_nil_r ws).
    apply (hasPrefix_slash_space_app ws []); [exact Hws|reflexivity].
  - cbn [app]. rewrite hasPrefix_one. rewrite hasPrefix_one in Ht. exact Ht.
Qed.

Lemma contains_text_space text ws :
  allSpace ws = true ->
  endsSpace text = false ->
  strings.contains text [LF; SLASH] = false ->
  strings.contains (text ++ ws) [LF; SLASH] = false.
Proof.
  intros Hws. induction text as [|c t IH]; intros Hend Hno.
  - cbn [app]. rewrite <- (app_nil_r ws).
    rewrite (contains_space_app ws []) by (exact Hws || reflexivity).
    reflexivity.
  - cbn [strings.contains] in Hno. apply orb_false_iff in Hno as [Hhere Hrest].
    cbn [app strings.contains]. apply orb_false_iff. split.
    + destruct t as [|d t].
      * cbn [endsSpace] in Hend. cbn [strings.hasPrefix].
        destruct (Ascii.eqb c LF) eqn:Ec; [|reflexivity].
        apply isSpace_LF in Ec. congruence.
      * cbn [strings.hasPrefix app] in Hhere |- *.
        replace (strings.hasPrefix (t ++ ws) []) with (strings.hasPrefix t [])
          by (destruct t; destruct ws; reflexivity).
        exact Hhere.
    + apply IH; [|exact Hrest]. destruct t; [reflexivity|exact Hend].
Qed.

Lemma dropWhile_all p s : forallb p s = true -> forall rest,
  dropWhile p (s ++ rest) = dropWhile p rest.
Proof.
  induction s as [|c s IH]; intros H rest; [reflexivity|].
  cbn [forallb] in H. apply andb_prop in H as [Hc Hs].
  cbn [app dropWhile]. rewrite Hc. apply IH, Hs.
Qed.

Lemma dropWhile_slash_fixed s :
  strings.hasPrefix s [SLASH] = false -> dropWhile isSlash s = s.
Proof.
  destruct s as [|c s]; [reflexivity|].
  rewrite hasPrefix_one. cbn [dropWhile]. unfold isSlash. intros ->. reflexivity.
Qed.

Lemma allSpace_app s t : allSpace (s ++ t) = allSpace s && allSpace t.
Proof. apply forallb_app. Qed.

Lemma rtrim_all_space ws : allSpace ws = true -> rtrim ws = [].
Proof.
  destruct ws as [|c ws]; [reflexivity|].
  intros H. rewrite rtrim_cons, H. reflexivity.
Qed.

Lemma rtrim_text_space text ws :
  allSpace ws = true -> endsSpace text = false -> rtrim (text ++ ws) = text.
Proof.
  intros Hws. induction text as [|c t IH]; intros Hend.
  - apply rtrim_all_space, Hws.
  - cbn [app]. rewrite rtrim_cons.
    destruct (allSpace (c :: t ++ ws)) eqn:Hall.
    + change (c :: t ++ ws) with ((c :: t) ++ ws) in Hall.
      rewrite allSpace_app in Hall. apply andb_prop in Hall as [Hall _].
      rewrite (allSpace_endsSpace _ Hall) in Hend by discriminate.
      discriminate.
    + f_equal. apply IH. destruct t; [reflexivity|exact Hend].
Qed.

(** X14. Leading slashes, the white space after them and the white space
    at the end are what the scrubber takes off a comment whose text it has
    nothing to change in: for every text the scrubber leaves as it is,
    scrubbing slashes, white space, the text and white space gives the
    text. *)
Theorem X14_scrubComments_strips_the_marker (slashes ws text ws' : string) :
  forallb isSlash (b slashes) = true ->
  allSpace (b ws) = true ->
  allSpace (b ws') = true ->
  scrubComments text = text ->
  scrubComments (slashes ++ ws ++ text ++ ws')%string = text.
Proof.
  intros Hsl Hws Hws' Hfix.
  destruct (scrubComments_fixed_inv _ Hfix) as [Hslash Hnl].
  destruct (scrubComments_shape text) as [Hstart [Hend Hmid]].
  rewrite Hfix in Hstart, Hend, Hmid.
  unfold strings.HasPrefix in Hslash. unfold strings.Contains in Hnl.
  change (b "/") with [SLASH] in Hslash.
  change (b (String LF "/")) with [LF; SLASH] in Hnl.
  rewrite <- (str_b (scrubComments _)), scrubComments_bytes, !b_app.
  remember (b text) as t eqn:Et.
  assert (Hts : strings.hasPrefix (t ++ b ws') [SLASH] = false)
    by (apply hasPrefix_slash_text_app; assumption).
  assert (Hno : strings.contains (b slashes ++ b ws ++ t ++ b ws') [LF; SLASH]
                = false).
  { rewrite contains_slashes_app by exact Hsl.
    rewrite contains_space_app by assumption.
    apply contains_text_space; assumption. }
  rewrite (replace_fixed [LF; SLASH; " "%char])
    by (apply (contains_app [LF; SLASH] [" "%char]), Hno).
  rewrite (replace_fixed [LF; SLASH]) by exact Hno.
  rewrite ltrim_dropWhile, (dropWhile_all _ _ Hsl).
  rewrite dropWhile_slash_fixed
    by (apply hasPrefix_slash_space_app; assumption).
  rewrite (dropWhile_all _ _ Hws).
  assert (Hlead : rtrim (dropWhile regexp.isSpace (t ++ b ws')) = t).
  { destruct t as [|c t'].
    - cbn [app]. rewrite <- (app_nil_r (b ws')).
      rewrite (dropWhile_all _ (b ws') Hws' []). reflexivity.
    - cbn [app dropWhile]. cbn [startsSpace] in Hstart. rewrite Hstart.
      apply (rtrim_text_space (c :: t')); assumption. }
  rewrite Hlead, collapse_fixed by exact Hmid.
  rewrite Et. apply str_b.
Qed.

Lemma X14_scrubComments_strips_the_marker_witness :
  scrubComments ("//" ++ " " ++ "Foo is bar." ++ String LF "")%string
  = "Foo is bar.".
Proof.
  apply (X14_scrubComments_strips_the_marker "//" " " "Foo is bar."
           (String LF "")); reflexivity.
Defined.

(** * Properties of [cleanStr] *)

(** [strings.replace] of a single character: the occurrences are replaced
    one by one. *)
Lemma replace_one_cons c new x s :
  strings.replace [c] new O (x :: s) =
  if Ascii.eqb x c then new ++ strings.replace [c] new O s
  else x :: strings.replace [c] new O s.
Proof.
  cbn [strings.replace]. rewrite hasPrefix_one. reflexivity.
Qed.

Lemma replace_one_removes c new :
  ~ In c new -> forall s, ~ In c (strings.replace [c] new O s).
Proof.
  intros Hnew. induction s as [|x s IH]; [intros []|].
  rewrite replace_one_cons. destruct (Ascii.eqb x c) eqn:E.
  - intros H. apply in_app_or in H as [H|H]; [exact (Hnew H)|exact (IH H)].
  - apply Ascii.eqb_neq in E. intros [H|H]; [exact (E H)|exact (IH H)].
Qed.

Lemma replace_one_keeps_out c new d :
  ~ In d new -> forall s, ~ In d s -> ~ In d (strings.replace [c] new O s).
Proof.
  intros Hnew. induction s as [|x s IH]; intros Hs; [intros []|].
  rewrite replace_one_cons. destruct (Ascii.eqb x c).
  - intros H. apply in_app_or in H as [H|H]; [exact (Hnew H)|].
    apply IH in H; [exact H|]. intros F. apply Hs. right. exact F.
  - intros [H|H]; [apply Hs; left; exact H|].
    apply IH in H; [exact H|]. intros F. apply Hs. right. exact F.
Qed.

Lemma replace_one_keeps_in c new d :
  d <> c -> forall s, In d s -> In d (strings.replace [c] new O s).
Proof.
  intros Hd. induction s as [|x s IH]; intros Hs; [destruct Hs|].
  rewrite replace_one_cons. destruct (Ascii.eqb x c) eqn:E.
  - apply in_or_app. right. apply IH. destruct Hs as [->|Hs]; [|exact Hs].
    apply Ascii.eqb_eq in E. congruence.
  - destruct Hs as [->|Hs]; [left; reflexivity|right; apply IH, Hs].
Qed.

Lemma replace_one_absent c new s :
  ~ In c s -> strings.replace [c] new O s = s.
Proof.
  induction s as [|x s IH]; intros Hs; [reflexivity|].
  rewrite replace_one_cons. destruct (Ascii.eqb x c) eqn:E.
  - apply Ascii.eqb_eq in E. subst. exfalso. apply Hs. left. reflexivity.
  - f_equal. apply IH. intros F. apply Hs. right. exact F.
Qed.

Lemma replace_one_length c new s :
  (1 <= List.length new)%nat ->
  (List.length s <= List.length (strings.replace [c] new O s))%nat.
Proof.
  intros Hnew. induction s as [|x s IH]; [cbn; lia|].
  rewrite replace_one_cons. destruct (Ascii.eqb x c).
  - rewrite length_app. cbn [List.length]. lia.
  - cbn [List.length]. lia.
Qed.

Lemma replace_one_longer c new s :
  (2 <= List.length new)%nat -> In c s ->
  (List.length s < List.length (strings.replace [c] new O s))%nat.
Proof.
  intros Hnew. induction s as [|x s IH]; intros Hs; [destruct Hs|].
  rewrite replace_one_cons. destruct (Ascii.eqb x c) eqn:E.
  - rewrite length_app. cbn [List.length].
    assert (H := replace_one_length c new s ltac:(lia)). lia.
  - destruct Hs as [->|Hs]; [rewrite Ascii.eqb_refl in E; discriminate|].
    apply IH in Hs. cbn [List.length]. lia.
Qed.

Lemma cleanStr_bytes s :
  b (cleanStr s) =
  strings.replace [DQUOTE] ["\"%char; DQUOTE] O
    (strings.replace [TAB] ["\"%char; "t"%char] O
       (strings.replace [LF] ["\"%char; "n"%char] O (b s))).
Proof.
  unfold cleanStr, strings.Replace. rewrite !b_str. reflexivity.
Qed.

Lemma cleanStr_no_newline_or_tab s :
  ~ In LF (b (cleanStr s)) /\ ~ In TAB (b (cleanStr s)).
Proof.
  rewrite cleanStr_bytes. split.
  - apply replace_one_keeps_out; [cbn; intros [H|[H|[]]]; discriminate|].
    apply replace_one_keeps_out; [cbn; intros [H|[H|[]]]; discriminate|].
    apply replace_one_removes. cbn; intros [H|[H|[]]]; discriminate.
  - apply replace_one_keeps_out; [cbn; intros [H|[H|[]]]; discriminate|].
    apply replace_one_removes. cbn; intros [H|[H|[]]]; discriminate.
Qed.

(** X15. The string [cleanStr] returns has no newline and no tab left in
    it. *)
Theorem X15_cleanStr_has_no_newline_or_tab (s : string) :
  ~ In LF (b (cleanStr s)) /\ ~ In TAB (b (cleanStr s)).
Proof.
  rewrite cleanStr_bytes. split.
  - apply replace_one_keeps_out; [cbn; intros [H|[H|[]]]; discriminate|].
    apply replace_one_keeps_out; [cbn; intros [H|[H|[]]]; discriminate|].
    apply replace_one_removes. cbn; intros [H|[H|[]]]; discriminate.
  - apply replace_one_keeps_out; [cbn; intros [H|[H|[]]]; discriminate|].
    apply replace_one_removes. cbn; intros [H|[H|[]]]; discriminate.
Qed.

(** X16. [cleanStr] leaves a string as it is exactly when the string has
    no newline, no tab and no double quote; it never makes a string
    shorter. *)
Theorem X16_cleanStr_fixed_iff (s : string) :
  (cleanStr s = s <->
   ~ In LF (b s) /\ ~ In TAB (b s) /\ ~ In DQUOTE (b s)) /\
  (String.length s <= String.length (cleanStr s))%nat.
Proof.
  assert (Hlen : (List.length (b s) <= List.length (b (cleanStr s)))%nat).
  { rewrite cleanStr_bytes.
    etransitivity; [|apply replace_one_length; cbn; lia].
    etransitivity; [|apply replace_one_length; cbn; lia].
    apply replace_one_length; cbn; lia. }
  split; [|rewrite !b_length in Hlen; exact Hlen].
  split.
  - intros Hfix.
    destruct (cleanStr_no_newline_or_tab s) as [Hlf Htab].
    rewrite Hfix in Hlf, Htab. split; [exact Hlf|]. split; [exact Htab|].
    intros Hq.
    assert (Hlong : (List.length (b s) < List.length (b (cleanStr s)))%nat).
    { rewrite cleanStr_bytes.
      eapply Nat.le_lt_trans; [|apply replace_one_longer; [cbn; lia|]].
      - etransitivity; [|apply replace_one_length; cbn; lia].
        apply replace_one_length; cbn; lia.
      - apply replace_one_keeps_in; [discriminate|].
        apply replace_one_keeps_in; [discriminate|exact Hq]. }
    rewrite Hfix in Hlong. lia.
  - intros [Hlf [Htab Hq]].
    rewrite <- (str_b (cleanStr s)), cleanStr_bytes.
    rewrite (replace_one_absent LF) by exact Hlf.
    rewrite (replace_one_absent TAB) by exact Htab.
    rewrite (replace_one_absent DQUOTE) by exact Hq.
    apply str_b.
Qed.

Lemma X16_cleanStr_fixed_iff_witness : cleanStr "Foo is bar." = "Foo is bar.".
Proof.
  apply (proj2 (proj1 (X16_cleanStr_fixed_iff "Foo is bar."))).
  cbn. repeat split; intros H;
    repeat (destruct H as [H|H]; [discriminate H|]); exact H.
Defined.

(** * Properties of [protoFieldLabel] *)

(** [strings.split] on a single character. *)
Lemma split_one_cons c x s :
  strings.split [c] O (x :: s) =
  if Ascii.eqb x c then [] :: strings.split [c] O s
  else match strings.split [c] O s with
       | piece :: pieces => (x :: piece) :: pieces
       | [] => [[x]]
       end.
Proof.
  cbn [strings.split]. rewrite hasPrefix_one. reflexivity.
Qed.

Lemma split_one_length c s :
  List.length (strings.split [c] O s) = S (count_occ ascii_dec s c).
Proof.
  induction s as [|x s IH]; [reflexivity|].
  rewrite split_one_cons. cbn [count_occ].
  destruct (Ascii.eqb x c) eqn:E.
  - apply Ascii.eqb_eq in E. subst.
    destruct (ascii_dec c c); [|congruence]. cbn [List.length]. rewrite IH.
    reflexivity.
  - apply Ascii.eqb_neq in E. destruct (ascii_dec x c); [congruence|].
    destruct (strings.split [c] O s); cbn [List.length] in IH |- *;
      [discriminate|exact IH].
Qed.

(** A piece without the separator, the separator, and the rest. *)
Lemma split_one_app c piece rest :
  ~ In c piece ->
  strings.split [c] O (piece ++ c :: rest) = piece :: strings.split [c] O rest.
Proof.
  induction piece as [|x piece IH]; intros H.
  - cbn [app]. rewrite split_one_cons, Ascii.eqb_refl. reflexivity.
  - cbn [app]. rewrite split_one_cons.
    destruct (Ascii.eqb x c) eqn:E.
    + apply Ascii.eqb_eq in E. subst. exfalso. apply H. left. reflexivity.
    + rewrite IH; [reflexivity|]. intros F. apply H. right. exact F.
Qed.

Lemma split_one_last c piece :
  ~ In c piece -> strings.split [c] O piece = [piece].
Proof.
  induction piece as [|x piece IH]; intros H; [reflexivity|].
  rewrite split_one_cons. destruct (Ascii.eqb x c) eqn:E.
  - apply Ascii.eqb_eq in E. subst. exfalso. apply H. left. reflexivity.
  - rewrite IH; [reflexivity|]. intros F. apply H. right. exact F.
Qed.

(** X17. The label of a tag is what stands between the first "=" of the
    tag's fourth comma-separated part and the end of that part: for the
    tag [wire,number,kind,key=label] followed by nothing or by a comma and
    more, where none of the five pieces contains a comma and neither
    [key] nor [label] contains "=", [protoFieldLabel] returns [label]. *)
Theorem X17_protoFieldLabel_of_tag
    (wire number kind key label more : string) :
  ~ In ","%char (b wire) -> ~ In ","%char (b number) ->
  ~ In ","%char (b kind) -> ~ In ","%char (b key) ->
  ~ In ","%char (b label) ->
  ~ In "="%char (b key) -> ~ In "="%char (b label) ->
  protoFieldLabel
    (wire ++ "," ++ number ++ "," ++ kind ++ "," ++ key ++ "=" ++ label)%string
  = label /\
  protoFieldLabel
    (wire ++ "," ++ number ++ "," ++ kind ++ "," ++ key ++ "=" ++ label
     ++ "," ++ more)%string
  = label.
Proof.
  intros Hw Hn Hk Hkey Hlabel Hkey' Hlabel'.
  assert (Hpart : ~ In ","%char (b key ++ "="%char :: b label)).
  { intros H. apply in_app_or in H as [H|[H|H]];
      [exact (Hkey H)|discriminate H|exact (Hlabel H)]. }
  assert (Heq : strings.Split (str (b key ++ "="%char :: b label)) "="
                = [key; label]).
  { unfold strings.Split. rewrite b_str.
    change (b "=") with ["="%char].
    rewrite (split_one_app _ _ _ Hkey'), (split_one_last _ _ Hlabel').
    cbn [map]. rewrite !str_b. reflexivity. }
  unfold protoFieldLabel, strings.Split at 1 3. rewrite !b_app.
  change (b ",") with [","%char]. change (b "=") with ["="%char].
  cbn [app].
  rewrite !(split_one_app _ (b wire)) by exact Hw.
  rewrite !(split_one_app _ (b number)) by exact Hn.
  rewrite !(split_one_app _ (b kind)) by exact Hk.
  split.
  - rewrite (split_one_last _ _ Hpart). cbn [map nth_error].
    rewrite Heq. reflexivity.
  - replace (b key ++ "="%char :: b label ++ ","%char :: b more)
      with ((b key ++ "="%char :: b label) ++ ","%char :: b more)
      by (rewrite <- app_assoc; reflexivity).
    rewrite (split_one_app _ _ _ Hpart). cbn [map nth_error].
    rewrite Heq. reflexivity.
Qed.

(** X18. A tag with fewer than three commas has no label:
    [protoFieldLabel] returns the empty string for it. *)
Theorem X18_protoFieldLabel_short_tag (proto_tag : string) :
  (count_occ ascii_dec (b proto_tag) ","%char < 3)%nat ->
  protoFieldLabel proto_tag = "".
Proof.
  intros H. unfold protoFieldLabel, strings.Split at 1.
  change (b ",") with [","%char].
  assert (Hlen := split_one_length ","%char (b proto_tag)).
  destruct (nth_error (map str (strings.split [","%char] O (b proto_tag))) 3)
    as [part|] eqn:E; [|reflexivity].
  assert (Hlt : (3 < List.length
                       (map str (strings.split [","%char] O (b proto_tag))))%nat).
  { apply nth_error_Some. rewrite E. discriminate. }
  rewrite length_map in Hlt. lia.
Qed.

(** * The last step of a resolution *)

(** X19. What the resolver makes of the element a path ends in depends on
    the element's kind: for the path [[number; index]] into a collection
    of a struct with a Name, an element that is a string is its own name,
    an element that is a number or a boolean is the error "expected
    struct", and a nil pointer makes the resolver panic. *)
Theorem X19_buildNamePath_last_element
    (node : reflect.Value) (name label : string) (number index : Z)
    (elems : list reflect.Value) (elem : reflect.Value) :
  structName node = Ret name ->
  getProtobufField number node = Ret (reflect.SliceOf elems, label) ->
  0 <= index ->
  nth_error elems (Z.to_nat index) = Some elem ->
  (forall s, elem = reflect.StringOf s ->
     buildNamePath [number; index] node = Ret [name; s]) /\
  (forall k, elem = reflect.ScalarOf k ->
     buildNamePath [number; index] node
     = Fail (ErrExpectedStruct (reflect.Scalar k))) /\
  (forall pointee, elem = reflect.NilPtr pointee ->
     buildNamePath [number; index] node = Panic PanicZeroValueType).
Proof.
  intros Hname Hfield Hpos Hnth.
  destruct (structName_struct _ _ Hname) as [fs ->].
  assert (Hlt : index < Z.of_nat (List.length elems)).
  { assert (H : (Z.to_nat index < List.length elems)%nat)
      by (apply nth_error_Some; rewrite Hnth; discriminate).
    lia. }
  assert (Hget : getCollectionIndex (reflect.SliceOf elems) index = Ret elem).
  { unfold getCollectionIndex. cbn [Len bind Index].
    destruct (index >=? Z.of_nat (List.length elems)) eqn:E1.
    { rewrite Z.geb_leb in E1. apply Z.leb_le in E1. lia. }
    destruct (index <? 0) eqn:E2; [apply Z.ltb_lt in E2; lia|].
    rewrite Hnth. reflexivity. }
  assert (Hstep : buildNamePath [number; index] (reflect.StructOf fs)
                  = prepend name (buildNamePath [] (cleanNext elem))).
  { cbn [buildNamePath]. rewrite (nameOfNode_struct _ _ Hname). cbn [bind].
    rewrite Hfield. cbn [bind].
    destruct (index >=? Z.of_nat (List.length elems)) eqn:E1.
    { rewrite Z.geb_leb in E1. apply Z.leb_le in E1. lia. }
    rewrite Hget. reflexivity. }
  rewrite Hstep. repeat split; intros ? ->; reflexivity.
Qed.

Lemma X19_buildNamePath_last_element_witness :
  buildNamePath [3; 0] Example.shop = Ret ["shop.proto"; "base.proto"].
Proof.
  apply (proj1 (X19_buildNamePath_last_element Example.shop "shop.proto"
                  "dependency" 3 0 [reflect.StringOf "base.proto"]
                  (reflect.StringOf "base.proto")
                  eq_refl eq_refl (Z.le_refl 0) eq_refl)
           "base.proto" eq_refl).
Defined.

(** * The further properties on the examples *)

Lemma X11_name_paths_begin_with_the_file_witness :
  exists fl name rest,
    In fl (workList (Example.request Example.fiveLocations)) /\
    structName (ValueOf (fst fl)) = Ret name /\
    buildNamePath (Path (snd fl)) (ValueOf (fst fl))
    = Ret ["shop.proto"; "Widget"; "id"] /\
    ["shop.proto"; "Widget"; "id"] = name :: rest.
Proof.
  apply (X11_name_paths_begin_with_the_file Example.Tree
           Example.SetDescription Example.SetComment
           (Example.request Example.fiveLocations) Example.start).
  - intros fl Hin. cbn in Hin.
    repeat (destruct Hin as [<-|Hin]; [eexists; reflexivity|]).
    destruct Hin.
  - cbn. right. right. left. reflexivity.
Defined.

Lemma X17_protoFieldLabel_of_tag_witness :
  protoFieldLabel "bytes,4,rep,name=message_type" = "message_type" /\
  protoFieldLabel "bytes,4,rep,name=message_type,json=messageType"
  = "message_type".
Proof.
  apply (X17_protoFieldLabel_of_tag "bytes" "4" "rep" "name" "message_type"
           "json=messageType");
    cbn; intros H; repeat (destruct H as [H|H]; [discriminate H|]); exact H.
Defined.

Lemma X18_protoFieldLabel_short_tag_witness :
  protoFieldLabel "bytes,4,rep" = "".
Proof.
  apply (X18_protoFieldLabel_short_tag "bytes,4,rep"). cbn. lia.
Defined.
